(** * EPUB translator: the translation pipeline of [js/app.js]

    A shallow embedding of the pipeline that both hosted back ends
    ([translateWithZhipuAI] and [translateWithOpenRouter]) run on one
    markup document: fragment extraction, batch grouping, gated and
    retried dispatch, reconciliation of the model's answer, and the
    rewriting of the document.  JavaScript strings are sequences of
    UTF-16 code units, DOM nodes carry an identity, and mutable state is
    passed explicitly. *)

From Stdlib Require Import ZArith NArith Lia Ascii String.
From stdpp Require Import base tactics option list numbers gmap pretty.

Local Open Scope nat_scope.

(** ** JavaScript strings *)

Module Js.

(** A string is its sequence of UTF-16 code units; [length] is the
    JavaScript [length]. *)
Definition jsstring : Type := list N.

(** ASCII literals of the source, written as Rocq strings. *)
Fixpoint lit (s : string) : jsstring :=
  match s with
  | EmptyString => []
  | String a r => N_of_ascii a :: lit r
  end.

Definition LF : N := 10%N.

(** [Array.prototype.join] on an array of strings. *)
Fixpoint join (sep : jsstring) (l : list jsstring) : jsstring :=
  match l with
  | [] => []
  | [x] => x
  | x :: r => x ++ sep ++ join sep r
  end.

(** [String.prototype.substring(0, n)] with [0 <= n]. *)
Definition substring0 (n : nat) (s : jsstring) : jsstring := take n s.

Definition sum_lengths (l : list jsstring) : nat :=
  foldr (fun s acc => length s + acc) 0 l.

(** Values a property such as [translatedText] or [skipReason] holds:
    absent ([undefined]), [null], or a string. *)
Inductive value :=
| Undefined
| Null
| Str (s : jsstring).

(** JavaScript truthiness of such a value: only a non-empty string. *)
Definition truthy (v : value) : bool :=
  match v with
  | Str (_ :: _) => true
  | _ => false
  end.

Definition jsstring_eqb (a b : jsstring) : bool := bool_decide (a = b).

(** Strict equality [v === s] against a string. *)
Definition strict_eq_str (v : value) (s : jsstring) : bool :=
  match v with
  | Str t => jsstring_eqb t s
  | _ => false
  end.

End Js.

Import Js.

(** ** Fragments and batches *)

(** The objects pushed on [paragraphs].  [element] and [textNode] are
    references to DOM nodes (node identities). *)
Record paragraph := Paragraph {
  element : nat;
  originalText : jsstring;
  rawText : jsstring;
  index : nat;
  skipReason : value;
  textNode : option nat;
  isInline : bool;
  translatedText : value
}.

(** The objects pushed on [groupedParagraphs]. *)
Record group := Group {
  paragraphs : list paragraph;
  combinedText : jsstring;
  count : nat
}.

(** ** Batch grouper *)

Module Grouper.

Definition TARGET_MIN_LENGTH : nat := 300.
Definition TARGET_MAX_LENGTH : nat := 500.
Definition MAX_BATCH_COUNT : nat := 8.

Definition sep : jsstring := [LF; LF].

(** [{paragraphs: currentBatch, combinedText: ...join('\n\n'), count: ...}] *)
Definition flushed (currentBatch : list paragraph) : group :=
  {| paragraphs := currentBatch;
     combinedText := join sep (map originalText currentBatch);
     count := length currentBatch |}.

(** [{paragraphs: [para], combinedText: para.originalText, count: 1}] *)
Definition alone (para : paragraph) : group :=
  {| paragraphs := [para];
     combinedText := originalText para;
     count := 1 |}.

(** The loop's variables. *)
Record state := State {
  groupedParagraphs : list group;
  currentBatch : list paragraph;
  currentLength : nat
}.

Definition init : state :=
  {| groupedParagraphs := []; currentBatch := []; currentLength := 0 |}.

(** One iteration of [for (let i = 0; i < paragraphs.length; i++)]. *)
Definition step (st : state) (para : paragraph) : state :=
  let textLength := length (originalText para) in
  if TARGET_MAX_LENGTH <? textLength then
    let st1 :=
      if 0 <? length (currentBatch st) then
        {| groupedParagraphs := groupedParagraphs st ++ [flushed (currentBatch st)];
           currentBatch := [];
           currentLength := 0 |}
      else st in
    {| groupedParagraphs := groupedParagraphs st1 ++ [alone para];
       currentBatch := currentBatch st1;
       currentLength := currentLength st1 |}
  else
    let batch := currentBatch st ++ [para] in
    let len := currentLength st + textLength in
    if (TARGET_MIN_LENGTH <=? len) || (MAX_BATCH_COUNT <=? length batch) then
      {| groupedParagraphs := groupedParagraphs st ++ [flushed batch];
         currentBatch := [];
         currentLength := 0 |}
    else
      {| groupedParagraphs := groupedParagraphs st;
         currentBatch := batch;
         currentLength := len |}.

Definition loop (ps : list paragraph) (st : state) : state :=
  foldl step st ps.

(** The remainder is flushed after the loop. *)
Definition finish (st : state) : list group :=
  if 0 <? length (currentBatch st) then
    groupedParagraphs st ++ [flushed (currentBatch st)]
  else groupedParagraphs st.

Definition groupParagraphs (ps : list paragraph) : list group :=
  finish (loop ps init).

(** The fragments of all batches, in batch order. *)
Definition flatten (gs : list group) : list paragraph :=
  concat (map paragraphs gs).

(** A paragraph whose text has [n] code units, all [c]. *)
Definition para_of_length (i n : nat) (c : N) : paragraph :=
  {| element := i; originalText := replicate n c; rawText := replicate n c;
     index := i; skipReason := Null; textNode := None; isInline := false;
     translatedText := Undefined |}.

(** Fragments within and beyond the hard maximum. *)
Definition small (p : paragraph) : Prop :=
  length (originalText p) <= TARGET_MAX_LENGTH.

Definition oversized (p : paragraph) : Prop :=
  TARGET_MAX_LENGTH < length (originalText p).

(** The shape of an emitted batch: a lone oversized fragment, or up to
    eight small fragments that were accumulated while the running length
    was still below the soft minimum. *)
Definition batch_shape (g : group) : Prop :=
  (exists p, paragraphs g = [p] /\ oversized p /\ combinedText g = originalText p)
  \/ (1 <= length (paragraphs g) <= MAX_BATCH_COUNT
      /\ Forall small (paragraphs g)
      /\ sum_lengths (map originalText (paragraphs g))
           < TARGET_MIN_LENGTH + TARGET_MAX_LENGTH
      /\ combinedText g = join sep (map originalText (paragraphs g))).

(** The invariant of the loop's variables. *)
Record inv (st : state) : Prop := Inv {
  inv_grouped : Forall batch_shape (groupedParagraphs st);
  inv_length : currentLength st = sum_lengths (map originalText (currentBatch st));
  inv_below : currentLength st < TARGET_MIN_LENGTH;
  inv_count : length (currentBatch st) < MAX_BATCH_COUNT;
  inv_small : Forall small (currentBatch st)
}.

(** The window property as the specification words it: every batch is
    within the hard maximum, or is one fragment that exceeds it. *)
Definition window_as_specified (ps : list paragraph) : Prop :=
  forall g, g ∈ groupParagraphs ps ->
    length (combinedText g) <= TARGET_MAX_LENGTH
    \/ exists p, paragraphs g = [p] /\ oversized p.

(** Two fragments of 260 code units each: the first leaves the running
    length below the soft minimum, the second is added before the length
    is tested, and the batch that is flushed has 522 code units. *)
Definition two_medium : list paragraph :=
  [para_of_length 0 260 97%N; para_of_length 1 260 98%N].

End Grouper.


(** ** Translation cache *)

Module Cache.

Definition MAX_CACHE_SIZE : nat := 1000.

(** Decimal rendering of a number inside a template literal. *)
Definition dec (n : nat) : jsstring := lit (pretty n).

Definition dash : jsstring := lit "-".

(** [getCacheKey]: language pair, length of the 100-unit prefix, length
    of the text, and the first 20 code units of that prefix. *)
Definition getCacheKey (text sourceLang targetLang : jsstring) : jsstring :=
  let prefix := substring0 100 text in
  sourceLang ++ dash ++ targetLang ++ dash ++ dec (length prefix) ++ dash
    ++ dec (length text) ++ dash ++ substring0 20 prefix.

(** [translationCache]: a [Map], whose entries are kept in insertion
    order. *)
Definition cache : Type := list (jsstring * jsstring).

(** [Map.prototype.set]: an existing key keeps its place. *)
Fixpoint set (key result : jsstring) (c : cache) : cache :=
  match c with
  | [] => [(key, result)]
  | (k, v) :: r =>
      if jsstring_eqb k key then (k, result) :: r else (k, v) :: set key result r
  end.

(** [Map.prototype.get]; [None] is [undefined]. *)
Fixpoint get (key : jsstring) (c : cache) : option jsstring :=
  match c with
  | [] => None
  | (k, v) :: r => if jsstring_eqb k key then Some v else get key r
  end.

(** [translationCache.delete(translationCache.keys().next().value)] *)
Definition delete_first (c : cache) : cache := drop 1 c.

Definition addToCache (text sourceLang targetLang result : jsstring) (c : cache) : cache :=
  let c1 := if MAX_CACHE_SIZE <=? length c then delete_first c else c in
  set (getCacheKey text sourceLang targetLang) result c1.

Definition getFromCache (text sourceLang targetLang : jsstring) (c : cache) : option jsstring :=
  get (getCacheKey text sourceLang targetLang) c.

(** Two batch texts of 31 code units that agree on their first 20. *)
Definition text_her : jsstring := lit "He opened the door and saw her.".
Definition text_him : jsstring := lit "He opened the door and saw him.".

End Cache.

(** ** Concurrency gate *)

Module Semaphore.

(** The closure state of [createSemaphore]: the counter, the [resolve]
    callbacks waiting in [queue], and the waiters whose promise has been
    resolved but whose continuation (the code after the [await]) has not
    run yet.  Waiters are named by the order of their call. *)
Record state := State {
  running : nat;
  queue : list nat;
  woken : list nat;
  calls : nat
}.

Definition init : state :=
  {| running := 0; queue := []; woken := []; calls := 0 |}.

(** What can happen between two suspension points. *)
Inductive event :=
| Acquire   (* [acquire(fn)] is called and runs up to its first [await] *)
| Resume    (* the continuation of the oldest woken waiter runs *)
| Finish.   (* [fn()] of a running task settles; the [finally] block runs *)

Definition step (maxConcurrent : nat) (st : state) (e : event) : option state :=
  match e with
  | Acquire =>
      if maxConcurrent <=? running st then
        Some {| running := running st; queue := queue st ++ [calls st];
                woken := woken st; calls := S (calls st) |}
      else
        Some {| running := S (running st); queue := queue st;
                woken := woken st; calls := S (calls st) |}
  | Resume =>
      match woken st with
      | [] => None
      | _ :: w =>
          Some {| running := S (running st); queue := queue st;
                  woken := w; calls := calls st |}
      end
  | Finish =>
      match running st with
      | 0 => None
      | S r =>
          match queue st with
          | [] => Some {| running := r; queue := []; woken := woken st;
                         calls := calls st |}
          | q :: qs => Some {| running := r; queue := qs; woken := woken st ++ [q];
                              calls := calls st |}
          end
      end
  end.

Fixpoint run (maxConcurrent : nat) (es : list event) (st : state) : option state :=
  match es with
  | [] => Some st
  | e :: r =>
      match step maxConcurrent st e with
      | Some st' => run maxConcurrent r st'
      | None => None
      end
  end.

(** A schedule in which no [acquire] is called while a woken waiter has
    still to resume. *)
Fixpoint settled (maxConcurrent : nat) (es : list event) (st : state) : Prop :=
  match es with
  | [] => True
  | e :: r =>
      (e = Acquire -> woken st = [])
      /\ match step maxConcurrent st e with
         | Some st' => settled maxConcurrent r st'
         | None => True
         end
  end.

(** Slots in use: running tasks plus waiters that were handed a slot. *)
Definition occupied (st : state) : nat := running st + length (woken st).

End Semaphore.

(** ** White space, trimming and splitting *)

Module Text.

Definition N_in (c : N) (l : list N) : bool := bool_decide (c ∈ l).

(** The code units [String.prototype.trim] strips and [\s] matches: the
    WhiteSpace and LineTerminator productions. *)
Definition is_space (c : N) : bool :=
  N_in c [9; 10; 11; 12; 13; 32; 160; 5760; 8232; 8233; 8239; 8287; 12288; 65279]%N
  || ((8192 <=? c)%N && (c <=? 8202)%N).

Fixpoint trimStart (s : jsstring) : jsstring :=
  match s with
  | c :: r => if is_space c then trimStart r else s
  | [] => []
  end.

Definition trimEnd (s : jsstring) : jsstring := reverse (trimStart (reverse s)).

Definition trim (s : jsstring) : jsstring := trimEnd (trimStart s).

Definition nonempty (s : jsstring) : bool :=
  match s with [] => false | _ => true end.

(** Some code unit of [s] is not white space. *)
Definition has_ink (s : jsstring) : bool := existsb (fun c => negb (is_space c)) s.

(** [s.trim().length === 0] *)
Definition blank (s : jsstring) : bool := negb (nonempty (trim s)).

Definition is_LF (c : N) : bool := (c =? LF)%N.

(** [s.split(/\n\n+/)]: [cur] is the piece being read and [nl] the
    number of line feeds of the run being read; a run of two or more is
    a separator, a single line feed belongs to the piece. *)
Fixpoint split_double_go (s cur : jsstring) (nl : nat) : list jsstring :=
  match s with
  | [] => if 2 <=? nl then [cur; []] else [cur ++ replicate nl LF]
  | c :: r =>
      if is_LF c then split_double_go r cur (S nl)
      else if 2 <=? nl then cur :: split_double_go r [c] 0
      else split_double_go r (cur ++ replicate nl LF ++ [c]) 0
  end.

Definition split_double (s : jsstring) : list jsstring := split_double_go s [] 0.

(** [s.split(/\n/)] *)
Fixpoint split_single_go (s cur : jsstring) : list jsstring :=
  match s with
  | [] => [cur]
  | c :: r => if is_LF c then cur :: split_single_go r [] else split_single_go r (cur ++ [c])
  end.

Definition split_single (s : jsstring) : list jsstring := split_single_go s [].

(** [.map(line => line.trim()).filter(line => line)] *)
Definition trimmed_pieces (l : list jsstring) : list jsstring :=
  filter (fun s => nonempty s = true) (map trim l).

Definition is_digit (c : N) : bool := (48 <=? c)%N && (c <=? 57)%N.

Fixpoint span (f : N -> bool) (s : jsstring) : nat :=
  match s with
  | c :: r => if f c then S (span f r) else 0
  | [] => 0
  end.

(** Length of the match of [/\[P\d+\]/] at the head of [s], if any. *)
Definition marker_length (s : jsstring) : option nat :=
  match s with
  | 91%N :: 80%N :: r =>
      let d := span is_digit r in
      match d, drop d r with
      | S _, 93%N :: _ => Some (d + 3)
      | _, _ => None
      end
  | _ => None
  end.

(** Length of the match of [/\[P\d+\]\s*/] at the head of [s], if any. *)
Definition marker_space_length (s : jsstring) : option nat :=
  match marker_length s with
  | Some k => Some (k + span is_space (drop k s))
  | None => None
  end.

(** [s.replace(/\[P\d+\]\s*/g, '')]: [skip] code units of a match are
    still to be dropped. *)
Fixpoint strip_markers_go (s : jsstring) (skip : nat) : jsstring :=
  match s with
  | [] => []
  | c :: r =>
      match skip with
      | S k => strip_markers_go r k
      | 0 =>
          match marker_space_length s with
          | Some (S k) => strip_markers_go r k
          | _ => c :: strip_markers_go r 0
          end
      end
  end.

Definition strip_markers (s : jsstring) : jsstring := strip_markers_go s 0.

(** [s.replace(/^\[P\d+\]/, '')] *)
Definition strip_leading_marker (s : jsstring) : jsstring :=
  match marker_length s with
  | Some k => drop k s
  | None => s
  end.

End Text.

(** ** Response reconciler *)

Module Reconcile.
Import Text.

Definition set_translatedText (v : value) (p : paragraph) : paragraph :=
  {| element := element p; originalText := originalText p; rawText := rawText p;
     index := index p; skipReason := skipReason p; textNode := textNode p;
     isInline := isInline p; translatedText := v |}.

Definition set_skipReason (v : value) (p : paragraph) : paragraph :=
  {| element := element p; originalText := originalText p; rawText := rawText p;
     index := index p; skipReason := v; textNode := textNode p;
     isInline := isInline p; translatedText := translatedText p |}.

(** [Math.abs(a - b)] on lengths. *)
Definition distance (a b : nat) : nat := (a - b) + (b - a).

(** The split that gateway A keeps: the double-line-break split when its
    count is the expected one, else the single-line-break split when its
    count is, else the one whose count is closer (the first on a tie). *)
Definition chooseSplit (cleanedText : jsstring) (expectedCount : nat) : list jsstring :=
  let doubleNewlineSplit := trimmed_pieces (split_double cleanedText) in
  if length doubleNewlineSplit =? expectedCount then doubleNewlineSplit
  else
    let singleNewlineSplit := trimmed_pieces (split_single cleanedText) in
    if length singleNewlineSplit =? expectedCount then singleNewlineSplit
    else if distance (length singleNewlineSplit) expectedCount
            <? distance (length doubleNewlineSplit) expectedCount
         then singleNewlineSplit
         else doubleNewlineSplit.

(** [translatedLines] of gateway A, residual markers removed. *)
Definition translatedLines (cleanedText : jsstring) (expectedCount : nat) : list jsstring :=
  map (fun line => strip_leading_marker (strip_markers line))
      (chooseSplit cleanedText expectedCount).

(** [translatedLines[idx]] *)
Definition at_index (lines : list jsstring) (idx : nat) : value :=
  match lines !! idx with
  | Some s => Str s
  | None => Undefined
  end.

Definition ceil_div (a b : nat) : nat := (a + b - 1) / b.

(** [translatedLines.slice(start, end)] *)
Definition slice (start stop : nat) (l : list jsstring) : list jsstring :=
  take (stop - start) (drop start l).

(** The skip reason of a shortfall:
    [`AI返回不足（${translatedLines.length}/${expectedCount}）`]. *)
Definition shortfallReason (got expected : nat) : jsstring :=
  [65; 73; 36820; 22238; 19981; 36275; 65288]%N ++ Cache.dec got ++ lit "/"
    ++ Cache.dec expected ++ [65289]%N.

(** Gateway A: assignment of the lines to the fragments of the batch. *)
Definition assignZhipu (ps : list paragraph) (lines : list jsstring) : list paragraph :=
  let expectedCount := length ps in
  if length lines =? expectedCount then
    imap (fun idx para => set_translatedText (at_index lines idx) para) ps
  else if expectedCount <? length lines then
    let linesPerPara := ceil_div (length lines) expectedCount in
    imap (fun idx para =>
            let startIdx := idx * linesPerPara in
            let endIdx := (startIdx + linesPerPara) `min` length lines in
            set_translatedText (Str (join (lit " ") (slice startIdx endIdx lines))) para)
         ps
  else
    imap (fun idx para =>
            if idx <? length lines then set_translatedText (at_index lines idx) para
            else set_skipReason (Str (shortfallReason (length lines) expectedCount))
                   (set_translatedText Null para))
         ps.

Definition reconcileZhipu (ps : list paragraph) (cleanedText : jsstring) : list paragraph :=
  assignZhipu ps (translatedLines cleanedText (length ps)).

(** Gateway B, and a cache hit on either gateway: lines in order, and
    the fragment's own original text where the lines run out. *)
Definition assignKeepOriginal (ps : list paragraph) (lines : list jsstring) : list paragraph :=
  imap (fun idx para =>
          if idx <? length lines then set_translatedText (at_index lines idx) para
          else set_translatedText (Str (originalText para)) para)
       ps.

Definition reconcileOpenRouter (ps : list paragraph) (cleanedText : jsstring) : list paragraph :=
  assignKeepOriginal ps (trimmed_pieces (split_double cleanedText)).

(** [cachedResult.replace(/\[P\d+\]\s*/g, '').replace(/^\[P\d+\]/g, '')],
    then the double-line-break split. *)
Definition reconcileCached (ps : list paragraph) (cachedResult : jsstring) : list paragraph :=
  assignKeepOriginal ps
    (trimmed_pieces (split_double (strip_leading_marker (strip_markers cachedResult)))).

(** The test the pipeline uses for "not translated":
    [!p.translatedText || p.translatedText === p.originalText]. *)
Definition untranslated (p : paragraph) : bool :=
  negb (truthy (translatedText p)) || strict_eq_str (translatedText p) (originalText p).

(** A fresh fragment anchored at element [e]. *)
Definition fragment (e i : nat) (text : jsstring) : paragraph :=
  {| element := e; originalText := text; rawText := text; index := i;
     skipReason := Null; textNode := None; isInline := false;
     translatedText := Undefined |}.

Definition three_fragments : list paragraph :=
  [fragment 1 0 (lit "One."); fragment 2 1 (lit "Two."); fragment 3 2 (lit "Three.")].

(** Two segments separated by a double line break. *)
Definition two_segments : jsstring := lit "Un." ++ [LF; LF] ++ lit "Deux.".

(** The shortfall policy as the specification words it, for a function
    [reconcile] from a batch and a cleaned completion to the batch. *)
Definition shortfall_as_specified
    (lines : list paragraph -> jsstring -> list jsstring)
    (reconcile : list paragraph -> jsstring -> list paragraph) : Prop :=
  forall ps cleanedText i p,
    length (lines ps cleanedText) < length ps ->
    length (lines ps cleanedText) <= i ->
    reconcile ps cleanedText !! i = Some p ->
    translatedText p = Null /\ exists r, skipReason p = Str r /\ r <> [].

End Reconcile.

(** ** Back ends: one request and its failures *)

Module Backend.

Inductive backend := Zhipu | OpenRouter | Custom.

(** What [response.json()] gives, as far as the code reads it:
    [error?.message], the content of [choices[0]?.message] ([None] when
    [choices] itself is missing), and [translated_text]. *)
Record data := Data {
  error_message : option jsstring;
  choices : option (option jsstring);
  translated_text : option jsstring
}.

Record response := Response {
  status : nat;
  statusText : jsstring;
  text : jsstring;            (* the raw body *)
  json : option data          (* [None]: the body is not JSON *)
}.

(** [response.ok] *)
Definition ok (r : response) : bool := (200 <=? status r) && (status r <=? 299).

(** What the network does with one request: after [latency]
    milliseconds it either fails or delivers a response, body
    included (a body that stalls after the status line is not
    described). *)
Inductive reply :=
| Rejects (message : jsstring)
| Responds (r : response).

Record exchange := Exchange {
  latency : N;
  answer : reply
}.

(** Values that are thrown. *)
Inductive error :=
| AbortError                        (* the request's signal was aborted *)
| FetchError (message : jsstring)   (* [fetch] rejected *)
| SyntaxError                       (* [response.json()] rejected *)
| TypeError                         (* a property of [undefined] was read *)
| Error (message : jsstring).       (* [throw new Error(message)] *)

Inductive outcome (A : Type) :=
| Returns (a : A)
| Throws (e : error).
Arguments Returns {A} a.
Arguments Throws {A} e.

(** [fetch(url, {signal})] with [setTimeout(() => controller.abort(), t)];
    [None] when no signal is passed. *)
Definition fetch (timeout : option N) (x : exchange) : outcome response :=
  match timeout with
  | Some t => if (t <=? latency x)%N then Throws AbortError
              else match answer x with
                   | Rejects m => Throws (FetchError m)
                   | Responds r => Returns r
                   end
  | None => match answer x with
            | Rejects m => Throws (FetchError m)
            | Responds r => Returns r
            end
  end.

Definition BATCH_TIMEOUT : N := 120000.
Definition SINGLE_TIMEOUT : N := 60000.

(** The deadline each variant sets on a batch request and on a
    single-fragment request of the retry pass. *)
Definition batchTimeout (b : backend) : option N :=
  match b with
  | Zhipu | OpenRouter => Some BATCH_TIMEOUT
  | Custom => None
  end.

Definition singleTimeout (b : backend) : option N :=
  match b with
  | Zhipu | OpenRouter => Some SINGLE_TIMEOUT
  | Custom => None
  end.

(** ['智谱AI API Key 无效或已过期，请检查您的API Key设置'] *)
Definition zhipuAuthMessage : jsstring :=
  [26234; 35889; 65; 73; 32; 65; 80; 73; 32; 75; 101; 121; 32; 26080; 25928;
   25110; 24050; 36807; 26399; 65292; 35831; 26816; 26597; 24744; 30340; 65;
   80; 73; 32; 75; 101; 121; 35774; 32622]%N.

(** ['OpenRouter API Key 无效或已过期，请检查您的API Key设置'] *)
Definition openrouterAuthMessage : jsstring :=
  lit "OpenRouter API Key " ++
  [26080; 25928; 25110; 24050; 36807; 26399; 65292; 35831; 26816; 26597; 24744;
   30340; 65; 80; 73; 32; 75; 101; 121; 35774; 32622]%N.

(** ['API 调用失败: '] *)
Definition callFailed : jsstring := [65; 80; 73; 32; 35843; 29992; 22833; 36133; 58; 32]%N.
(** ['API 返回了空响应'] *)
Definition emptyAnswer : jsstring := [65; 80; 73; 32; 36820; 22238; 20102; 31354; 21709; 24212]%N.
(** ['API 返回数据格式不正确'] *)
Definition badFormat : jsstring :=
  [65; 80; 73; 32; 36820; 22238; 25968; 25454; 26684; 24335; 19981; 27491; 30830]%N.

(** [a || b] on an optional string and a string. *)
Definition or_else (a : option jsstring) (b : jsstring) : jsstring :=
  match a with
  | Some (c :: s) => c :: s
  | _ => b
  end.

(** Gateway A, after [fetch]: the checks of the response, up to the
    trimmed completion. *)
Definition zhipuCompletion (r : response) : outcome jsstring :=
  if negb (ok r) then
    let errorData := match json r with Some d => error_message d | None => None end in
    if status r =? 401 then Throws (Error zhipuAuthMessage)
    else Throws (Error (callFailed ++ Cache.dec (status r) ++ lit " - "
                          ++ or_else errorData (statusText r)))
  else
    match json r with
    | None => Throws SyntaxError
    | Some d =>
        match choices d with
        | None => Throws TypeError
        | Some content =>
            match content with
            | Some s =>
                match Text.trim s with
                | [] => Throws (Error emptyAnswer)
                | t => Returns t
                end
            | None => Throws (Error emptyAnswer)
            end
        end
    end.

(** Gateway B, after [fetch]. *)
Definition openrouterCompletion (r : response) : outcome jsstring :=
  if negb (ok r) then
    if status r =? 401 then Throws (Error openrouterAuthMessage)
    else
      let errorMsg := callFailed ++ Cache.dec (status r) in
      match json r with
      | Some d =>
          match error_message d with
          | Some (c :: s) => Throws (Error (errorMsg ++ lit " - " ++ c :: s))
          | _ => Throws (Error errorMsg)
          end
      | None => Throws (Error (errorMsg ++ lit " - " ++ text r))
      end
  else
    match json r with
    | None => Throws SyntaxError
    | Some d =>
        match choices d with
        | Some (Some (c :: s)) => Returns (Text.trim (c :: s))
        | _ => Throws (Error badFormat)
        end
    end.

(** One batch request of a hosted gateway: the deadline, the exchange,
    the checks. *)
Definition batchRequest (b : backend) (x : exchange) : outcome jsstring :=
  match fetch (batchTimeout b) x with
  | Throws e => Throws e
  | Returns r =>
      match b with
      | Zhipu => zhipuCompletion r
      | _ => openrouterCompletion r
      end
  end.

(** The whole of [translateWithCustomAPI] once end point and key are
    set: no signal on the request, and every failure is caught, logged
    and answered with the input text. *)
Definition translateWithCustomAPI (input : jsstring) (x : exchange) : outcome jsstring :=
  match fetch None x with
  | Throws _ => Returns input
  | Returns r =>
      if negb (ok r) then Returns input
      else match json r with
           | None => Returns input
           | Some d => Returns (or_else (translated_text d) input)
           end
  end.

(** A request of a variant on an input: a batch request for the hosted
    gateways, the whole call for the custom end point. *)
Definition translationRequest (b : backend) (input : jsstring) (x : exchange) : outcome jsstring :=
  match b with
  | Custom => translateWithCustomAPI input x
  | _ => batchRequest b x
  end.

(** A request has failed when the network rejected it, the status is not
    a success, or the body cannot be read as JSON. *)
Definition failed (x : exchange) : Prop :=
  match answer x with
  | Rejects _ => True
  | Responds r => ok r = false \/ json r = None
  end.

Definition authMessage (b : backend) : jsstring :=
  match b with
  | Zhipu => zhipuAuthMessage
  | _ => openrouterAuthMessage
  end.

(** The adapter contract as the specification words it. *)
Definition adapter_as_specified (b : backend) : Prop :=
  (exists t, batchTimeout b = Some t /\ (60000 <= t <= 120000)%N)
  /\ (forall input x, failed x -> exists e, translationRequest b input x = Throws e).

Definition plainResponse (code : nat) (reason : string) : response :=
  {| status := code; statusText := lit reason; text := []; json := None |}.

(** A server error that arrives after a second. *)
Definition serverError : exchange :=
  {| latency := 1000%N; answer := Responds (plainResponse 500 "Internal Server Error") |}.

(** A rejection of the credential. *)
Definition unauthorized : exchange :=
  {| latency := 300%N; answer := Responds (plainResponse 401 "Unauthorized") |}.

(** A completion. *)
Definition completes (s : jsstring) : exchange :=
  {| latency := 2000%N;
     answer := Responds {| status := 200; statusText := lit "OK"; text := [];
                           json := Some {| error_message := None;
                                           choices := Some (Some s);
                                           translated_text := None |} |} |}.

End Backend.

(** ** Retry controller *)

Module Retry.
Import Backend.

Definition maxRetries : nat := 3.

(** The object a batch task returns. *)
Inductive result :=
| Skipped                                         (* [{success: true, skipped: true}] *)
| Translated (groupCount : nat) (fromCache : bool) (* [{success: true, translated: true, ...}] *)
| Failed (e : error)                              (* [{success: false, error: error.message}] *)
| Exhausted.                                      (* [{success: false, error: 'Max retries exceeded'}] *)

(** What a task does that can be observed from outside. *)
Inductive action :=
| Try (attempt : nat)
| Wait (ms : N).

(** Gateway A: [Math.min(500 * Math.pow(2, retries - 1), 2000)] *)
Definition backoffZhipu (retries : nat) : N :=
  N.min (500 * 2 ^ N.of_nat (retries - 1)) 2000.

(** Gateway B: [1000 * retries] *)
Definition backoffOpenRouter (retries : nat) : N := 1000 * N.of_nat retries.

Definition backoff (b : backend) : nat -> N :=
  match b with
  | Zhipu => backoffZhipu
  | _ => backoffOpenRouter
  end.

(** [while (retries < maxRetries) { try { ... } catch (error) { ... } }];
    [body n] is what the [try] block does when it runs with
    [retries = n].  The loop ends within [maxRetries] rounds; [None]
    only when [fuel] runs out first. *)
Fixpoint loop (fuel : nat) (delay : nat -> N) (body : nat -> outcome result)
    (retries : nat) (trace : list action) : option (result * list action) :=
  match fuel with
  | 0 => None
  | S fuel' =>
      if retries <? maxRetries then
        let trace := trace ++ [Try retries] in
        match body retries with
        | Returns r => Some (r, trace)
        | Throws e =>
            let retries := S retries in
            if maxRetries <=? retries then Some (Failed e, trace)
            else loop fuel' delay body retries (trace ++ [Wait (delay retries)])
        end
      else Some (Exhausted, trace)
  end.

Definition retrying (b : backend) (body : nat -> outcome result) : option (result * list action) :=
  loop (S maxRetries) (backoff b) body 0 [].

(** [group.combinedText] as the code points the [u] flag makes the
    pattern read: a high surrogate followed by a low one is one code
    point, any other code unit is a code point of its own. *)
Definition is_high_surrogate (c : N) : bool := (55296 <=? c)%N && (c <=? 56319)%N.
Definition is_low_surrogate (c : N) : bool := (56320 <=? c)%N && (c <=? 57343)%N.

Fixpoint codePoints (s : jsstring) : list N :=
  match s with
  | [] => []
  | c :: r =>
      match r with
      | d :: r' =>
          if is_high_surrogate c && is_low_surrogate d
          then (65536 + (c - 55296) * 1024 + (d - 56320))%N :: codePoints r'
          else c :: codePoints r
      | [] => [c]
      end
  end.

(** What an attempt finds: the cache entry for the batch, if any, and
    the exchange its request would have. *)
Record attempt_env := AttemptEnv {
  cachedResult : option jsstring;
  exchange_of : exchange
}.

(** The [try] block of a batch task, as far as its result goes: a cache
    hit returns at once, else the request is made and a completion is
    reconciled and reported. *)
Definition tryBatch (b : backend) (g : group) (env : attempt_env) : outcome result :=
  match cachedResult env with
  | Some (_ :: _) => Returns (Translated (count g) true)
  | _ =>
      match batchRequest b (exchange_of env) with
      | Throws e => Throws e
      | Returns _ => Returns (Translated (count g) false)
      end
  end.

Definition attempts (trace : list action) : nat :=
  length (omap (fun a => match a with Try n => Some n | Wait _ => None end) trace).

Section task.

(** [[\p{P}\p{S}]]: the code points of the general categories
    Punctuation and Symbol, a table of the engine. *)
Variable punctuationOrSymbol : N -> bool.

(** [/^[\d\s\p{P}\p{S}]+$/u.test(originalText)] *)
Definition onlyMarks (originalText : jsstring) : bool :=
  match codePoints originalText with
  | [] => false
  | cs => forallb (fun c => Text.is_digit c || Text.is_space c || punctuationOrSymbol c) cs
  end.

(** The two tests a task begins with: a batch without text, or with
    digits, white space, punctuation and symbols only, is skipped. *)
Definition skips (g : group) : bool :=
  (length (combinedText g) <? 1) || onlyMarks (combinedText g).

(** The task of one batch on a hosted gateway, as far as its result and
    its attempts go: the two tests come before the loop, so that a
    skipped batch reads no cache entry and makes no request. *)
Definition batchTask (b : backend) (g : group) (world : nat -> attempt_env)
  : option (result * list action) :=
  let originalText := combinedText g in
  if length originalText <? 1 then Some (Skipped, [])
  else if onlyMarks originalText then Some (Skipped, [])
  else retrying b (fun n => tryBatch b g (world n)).

(** [batch.map(async (group) => translationSemaphore(...))] followed by
    [Promise.all]: every batch gets its task, whatever the others
    return.  [world i] is what the task of batch [i] meets. *)
Definition dispatch (b : backend) (gs : list group) (world : nat -> nat -> attempt_env)
  : list (option (result * list action)) :=
  imap (fun i g => batchTask b g (world i)) gs.

(** The authentication policy as the specification words it: a 401 on
    the first attempt (of a batch that is not skipped and not in the
    cache) ends the task after that one attempt. *)
Definition auth_as_specified (b : backend) : Prop :=
  forall g world r trace,
    skips g = false ->
    cachedResult (world 0) = None ->
    (exists resp, fetch (batchTimeout b) (exchange_of (world 0)) = Returns resp
                  /\ status resp = 401) ->
    batchTask b g world = Some (r, trace) ->
    attempts trace = 1.

End task.

(** The two categories on the ASCII range, for texts in ASCII: every
    printable character there that is neither a letter, a digit nor
    the space is a punctuation mark or a symbol. *)
Definition asciiMarks (c : N) : bool :=
  ((33 <=? c)%N && (c <=? 47)%N) || ((58 <=? c)%N && (c <=? 64)%N)
  || ((91 <=? c)%N && (c <=? 96)%N) || ((123 <=? c)%N && (c <=? 126)%N).

(** Every attempt is refused with status 401. *)
Definition alwaysUnauthorized : nat -> attempt_env :=
  fun _ => {| cachedResult := None; exchange_of := unauthorized |}.

(** Every attempt gets the completion [s]. *)
Definition alwaysCompletes (s : jsstring) : nat -> attempt_env :=
  fun _ => {| cachedResult := None; exchange_of := completes s |}.

(** Two batches: the first is refused every time, the second is served. *)
Definition refusedThenServed (s : jsstring) (i : nat) : nat -> attempt_env :=
  match i with
  | 0 => alwaysUnauthorized
  | _ => alwaysCompletes s
  end.

Definition oneGroup : group :=
  Grouper.flushed [Reconcile.fragment 1 0 (lit "Hello world.")].

(** Two failures, then a completion. *)
Definition failsTwice (n : nat) : outcome result :=
  match n with
  | 0 => Throws (FetchError (lit "Failed to fetch"))
  | 1 => Throws AbortError
  | _ => Returns (Translated 1 false)
  end.

End Retry.

(** ** Documents *)

Module Dom.
Import Text.

(** A node of the parsed document.  The number is the node's identity
    (what a JavaScript reference to the node stands for); [tagName] is
    the lower-cased name the code compares. *)
#[warnings="-register-all"]
Inductive node :=
| TextNode (id : nat) (data : jsstring)
| Comment (id : nat) (data : jsstring)
| Element (id : nat) (tagName : string) (childNodes : list node).

Definition node_id (n : node) : nat :=
  match n with
  | TextNode i _ | Comment i _ | Element i _ _ => i
  end.

(** [doc.head] and [doc.body], as the HTML parser builds them. *)
Record document := Document {
  head : list node;
  body_id : nat;
  body : list node
}.

(** [element.textContent]: the data of the text nodes below, in order. *)
Fixpoint textContent (n : node) : jsstring :=
  match n with
  | TextNode _ d => d
  | Comment _ _ => []
  | Element _ _ kids => concat (map textContent kids)
  end.

(** A text node as a tree walker meets it: its identity, its data and
    the elements around it, the parent first, up to but without the
    walker's root. *)
Record textnode := Textnode {
  tn_id : nat;
  tn_data : jsstring;
  tn_ancestors : list node
}.

Fixpoint textNodesUnder (ancestors : list node) (n : node) : list textnode :=
  match n with
  | TextNode i d => [{| tn_id := i; tn_data := d; tn_ancestors := ancestors |}]
  | Comment _ _ => []
  | Element _ _ kids => concat (map (textNodesUnder (n :: ancestors)) kids)
  end.

(** All text nodes below a list of siblings, in document order. *)
Definition textNodesOf (roots : list node) : list textnode :=
  concat (map (textNodesUnder []) roots).

(** The text nodes of the whole document. *)
Definition allTextNodes (doc : document) : list textnode :=
  textNodesOf (head doc) ++ textNodesOf (body doc).

Definition tag_of (n : node) : string :=
  match n with
  | Element _ t _ => t
  | _ => EmptyString
  end.

Definition tag_is (t : string) (n : node) : bool := String.eqb (tag_of n) t.

(** [BLOCK_TAGS] *)
Definition BLOCK_TAGS : list string :=
  ["p"; "div"; "h1"; "h2"; "h3"; "h4"; "h5"; "h6";
   "li"; "td"; "th"; "blockquote"; "article"; "section"; "header"; "footer";
   "aside"; "main"; "nav"; "figure"; "figcaption"; "caption"; "address"; "pre";
   "dl"; "dt"; "dd"]%string.

Definition is_block (n : node) : bool :=
  existsb (String.eqb (tag_of n)) BLOCK_TAGS.

(** [s.startsWith(p)] and [s.includes(p)]. *)
Fixpoint startsWith (p s : jsstring) : bool :=
  match p, s with
  | [], _ => true
  | a :: p', b :: s' => (a =? b)%N && startsWith p' s'
  | _ :: _, [] => false
  end.

Fixpoint includes (p s : jsstring) : bool :=
  startsWith p s
  || match s with
     | [] => false
     | _ :: s' => includes p s'
     end.

Definition endsWith (p s : jsstring) : bool := startsWith (reverse p) (reverse s).

(** A node is inside a script or style container. *)
Definition in_script_or_style (t : textnode) : bool :=
  existsb (fun a => tag_is "script" a || tag_is "style" a) (tn_ancestors t).

(** Elements named [br] have no children, as in every parsed document. *)
Fixpoint void_br (n : node) : Prop :=
  match n with
  | Element _ t kids =>
      (t = "br"%string -> kids = []) /\ foldr (fun k acc => void_br k /\ acc) True kids
  | _ => True
  end.

(** A text node with data [d] lies below [n] (or is [n]). *)
Fixpoint has_text (d : jsstring) (n : node) : Prop :=
  match n with
  | TextNode _ d' => d' = d
  | Comment _ _ => False
  | Element _ _ kids => foldr (fun k acc => has_text d k \/ acc) False kids
  end.

(** [a] is an element with such a text node below it. *)
Definition encloses (d : jsstring) (a : node) : Prop :=
  match a with
  | Element _ _ _ => has_text d a
  | _ => False
  end.

(** A plain serializer for trees of elements without attributes:
    [innerHTML] of such an element. *)
Definition escapeChar (c : N) : jsstring :=
  if (c =? 38)%N then lit "&amp;"
  else if (c =? 60)%N then lit "&lt;"
  else if (c =? 62)%N then lit "&gt;"
  else if (c =? 160)%N then lit "&nbsp;"
  else [c].

Definition escapeText (s : jsstring) : jsstring := concat (map escapeChar s).

Fixpoint outerHTML (n : node) : jsstring :=
  match n with
  | TextNode _ d => escapeText d
  | Comment _ d => lit "<!--" ++ d ++ lit "-->"
  | Element _ t kids =>
      if String.eqb t "br" then lit "<br>"
      else lit "<" ++ lit t ++ lit ">" ++ concat (map outerHTML kids)
             ++ lit "</" ++ lit t ++ lit ">"
  end.

Definition plainInnerHTML (n : node) : jsstring :=
  match n with
  | Element _ _ kids => concat (map outerHTML kids)
  | _ => []
  end.

End Dom.

(** ** Fragment extractor *)

Module Extract.
Import Text Dom.

Section extractor.

(** [element.innerHTML], the serializer of the browser. *)
Variable innerHTML : node -> jsstring.

(** The [acceptNode] filter of the walker. *)
Definition acceptNode (t : textnode) : bool :=
  if blank (tn_data t) then false
  else match tn_ancestors t with
       | parent :: _ => negb (tag_is "script" parent || tag_is "style" parent)
       | [] => true
       end.

(** The variables of the [forEach] over the child nodes of a block that
    contains line breaks. *)
Record br_state := BrState {
  subParagraphs : list jsstring;
  currentText : jsstring
}.

Definition IDEOGRAPHIC_SPACE : N := 12288%N.

Definition brChild (st : br_state) (childNode : node) : br_state :=
  match childNode with
  | TextNode _ text =>
      if startsWith [IDEOGRAPHIC_SPACE] text || nonempty (trim text) then
        {| subParagraphs := subParagraphs st; currentText := currentText st ++ text |}
      else st
  | Element _ tagName _ =>
      if String.eqb tagName "br" then
        if nonempty (trim (currentText st)) then
          {| subParagraphs := subParagraphs st ++ [trim (currentText st)];
             currentText := [] |}
        else st
      else if String.eqb tagName "a" then
        let linkText := textContent childNode in
        if nonempty (trim linkText) then
          let cur :=
            if nonempty (currentText st) && negb (endsWith [LF] (currentText st))
            then currentText st ++ lit " " else currentText st in
          {| subParagraphs := subParagraphs st; currentText := cur ++ linkText |}
        else st
      else
        let text := textContent childNode in
        if nonempty text && nonempty (trim text) then
          {| subParagraphs := subParagraphs st; currentText := currentText st ++ text |}
        else st
  | Comment _ _ => st
  end.

(** The sub-paragraphs of a block whose children are separated by line
    breaks, the last one included. *)
Definition splitAtBr (kids : list node) : list jsstring :=
  let st := foldl brChild {| subParagraphs := []; currentText := [] |} kids in
  if nonempty (trim (currentText st)) then subParagraphs st ++ [trim (currentText st)]
  else subParagraphs st.

(** The variables of the walk. *)
Record state := State {
  processedElements : gset nat;
  paragraphs : list paragraph
}.

Definition push (ps : list paragraph) (e : nat) (original raw : jsstring)
    (tn : option nat) : list paragraph :=
  ps ++ [{| element := e; originalText := original; rawText := raw;
            index := length ps; skipReason := Null; textNode := tn;
            isInline := bool_decide (tn <> None); translatedText := Undefined |}].

(** [subParagraphs.forEach(paraText => { if (paraText.length >= 1) push })] *)
Definition pushAll (ps : list paragraph) (e : nat) (subs : list jsstring) : list paragraph :=
  foldl (fun acc paraText =>
           if 1 <=? length paraText then push acc e paraText paraText None else acc)
        ps subs.

(** The body of [while (node = walker.nextNode())] for an accepted node;
    [body_id] is the identity of [doc.body]. *)
Definition visit (body_id : nat) (st : state) (t : textnode) : state :=
  let text := trim (tn_data t) in
  if 0 <? length text then
    match List.find is_block (tn_ancestors t) with
    | Some el =>
        if bool_decide (node_id el ∈ processedElements st) then st
        else
          let processed := {[node_id el]} ∪ processedElements st in
          let rawText := textContent el in
          let trimText := trim rawText in
          let hasBrTags := includes (lit "<br") (innerHTML el) in
          if hasBrTags && (1 <=? length trimText) then
            let kids := match el with Element _ _ k => k | _ => [] end in
            {| processedElements := processed;
               paragraphs := pushAll (paragraphs st) (node_id el) (splitAtBr kids) |}
          else if 1 <=? length trimText then
            {| processedElements := processed;
               paragraphs := push (paragraphs st) (node_id el) trimText rawText None |}
          else {| processedElements := processed; paragraphs := paragraphs st |}
    | None =>
        let parent := match tn_ancestors t with a :: _ => node_id a | [] => body_id end in
        {| processedElements := processedElements st;
           paragraphs := push (paragraphs st) parent text text (Some (tn_id t)) |}
    end
  else st.

(** The walker is rooted at [doc.body]. *)
Definition extractParagraphs (doc : document) : list paragraph :=
  paragraphs
    (foldl (visit (body_id doc))
           {| processedElements := ∅; paragraphs := [] |}
           (filter (fun t => acceptNode t = true) (textNodesOf (body doc)))).

(** A fragment accounts for a text node: it is anchored at an element
    that contains the node, or it is the inline fragment of the node. *)
Definition accounts_for (p : paragraph) (t : textnode) : Prop :=
  (isInline p = false /\ exists el, el ∈ tn_ancestors t /\ element p = node_id el)
  \/ (isInline p = true /\ textNode p = Some (tn_id t)
      /\ List.find is_block (tn_ancestors t) = None).

(** The no-loss property as the specification words it, over the text
    nodes of the whole document. *)
Definition no_loss_as_specified (doc : document) : Prop :=
  forall t, t ∈ allTextNodes doc ->
    blank (tn_data t) = false ->
    in_script_or_style t = false ->
    exists p, p ∈ extractParagraphs doc /\ accounts_for p t.

End extractor.

(** The split at line breaks has produced a sub-paragraph, or is reading one. *)
Definition reading (st : br_state) : Prop :=
  (exists s, s ∈ subParagraphs st /\ nonempty s = true)
  \/ has_ink (currentText st) = true.

(** A text node as the walker can meet it in a parsed document: inked,
    and enclosed by each of its recorded ancestors. *)
Definition met (t : textnode) : Prop :=
  has_ink (tn_data t) = true
  /\ forall a, a ∈ tn_ancestors t -> encloses (tn_data t) a /\ void_br a.

(** Every element in [processedElements] anchors a fragment. *)
Definition anchored (st : state) : Prop :=
  forall e, e ∈ processedElements st ->
    exists p, p ∈ paragraphs st /\ element p = e /\ isInline p = false.

(** A chapter with a title in its head and one paragraph in its body. *)
Definition titled_chapter : document :=
  {| head := [Element 1 "title" [TextNode 2 (lit "Chapter One")]];
     body_id := 3;
     body := [Element 4 "p" [TextNode 5 (lit "It was a dark night.")]] |}.

(** Two stanzas in one paragraph, and a loose word after it. *)
Definition stanzas : document :=
  {| head := [];
     body_id := 1;
     body := [Element 2 "p" [TextNode 3 (lit "First line"); Element 4 "br" [];
                             TextNode 5 (lit "Second line")];
              TextNode 6 (lit "Fin")] |}.

End Extract.

(** ** Metadata patterns of the clean-up pass *)

Module Metadata.
Import Text Dom.

(** Matching under the [i] flag, for the ASCII letters of the patterns. *)
Definition fold_case (c : N) : N :=
  if (65 <=? c)%N && (c <=? 90)%N then (c + 32)%N else c.

Fixpoint startsWith_ci (p s : jsstring) : bool :=
  match p, s with
  | [], _ => true
  | a :: p', b :: s' => (fold_case a =? fold_case b)%N && startsWith_ci p' s'
  | _ :: _, [] => false
  end.

Fixpoint includes_ci (p s : jsstring) : bool :=
  startsWith_ci p s
  || match s with
     | [] => false
     | _ :: s' => includes_ci p s'
     end.

(** What [.] does not match. *)
Definition is_line_terminator (c : N) : bool := N_in c [10; 13; 8232; 8233]%N.

(** [[日中韩英法德俄葡西語語语]] *)
Definition is_language_mark (c : N) : bool :=
  N_in c [26085; 20013; 38889; 33521; 27861; 24503; 20420; 33889; 35199; 35486; 35821]%N.

(** [[\s\-→]] *)
Definition is_joiner (c : N) : bool := is_space c || N_in c [45; 8594]%N.

(** [.*?\]] at the head of [s]. *)
Fixpoint closes (s : jsstring) : bool :=
  match s with
  | [] => false
  | c :: r => (c =? 93)%N || (negb (is_line_terminator c) && closes r)
  end.

(** [[\s\-→]*.*?\]] at the head of [s]. *)
Fixpoint joined_closes (s : jsstring) : bool :=
  closes s
  || match s with
     | c :: r => is_joiner c && joined_closes r
     | [] => false
     end.

(** [.*?[日中韩英法德俄葡西語語语][\s\-→]*.*?\]] at the head of [s]. *)
Fixpoint marked_closes (s : jsstring) : bool :=
  match s with
  | [] => false
  | c :: r =>
      (is_language_mark c && joined_closes r)
      || (negb (is_line_terminator c) && marked_closes r)
  end.

(** [/\[.*?[日中韩英法德俄葡西語語语][\s\-→]*.*?\]/i.test(s)] *)
Fixpoint bracketed_language (s : jsstring) : bool :=
  match s with
  | [] => false
  | c :: r => ((c =? 91)%N && marked_closes r) || bracketed_language r
  end.

(** [metadataPatterns.some(pattern => pattern.test(nodeText))] *)
Definition hasMetadata (nodeText : jsstring) : bool :=
  includes_ci (lit "Excerpt From") nodeText
  || includes_ci (lit "This material may be protected by copyright") nodeText
  || bracketed_language nodeText.

(** A text node with this data is put on [nodesToRemove]. *)
Definition removed (data : jsstring) : bool :=
  let nodeText := trim data in
  (0 <? length nodeText) && hasMetadata nodeText.

End Metadata.

(** ** Document rewriter *)

Module Rewrite.
Import Text Dom Metadata.

(** [para.translatedText && para.translatedText !== para.originalText] *)
Definition translated (p : paragraph) : bool :=
  truthy (translatedText p) && negb (strict_eq_str (translatedText p) (originalText p)).

Definition text_of (v : value) : jsstring :=
  match v with
  | Str s => s
  | _ => []
  end.

(** [elementTranslations.get(e)]: the translated fragments whose
    [element] is [e], in order. *)
Definition translationsOf (ps : list paragraph) (e : nat) : list paragraph :=
  filter (fun p => translated p = true /\ element p = e) ps.

(** [textNode.textContent = s] on the text node [target]. *)
Fixpoint setData (target : nat) (s : jsstring) (n : node) : node :=
  match n with
  | TextNode i d => if i =? target then TextNode i s else n
  | Comment _ _ => n
  | Element i t kids => Element i t (map (setData target s) kids)
  end.

(** Replacement of the children of the element [target] by [content],
    computed from the element as it is. *)
Fixpoint setChildren (target : nat) (content : node -> list node) (n : node) : node :=
  match n with
  | Element i t kids =>
      if i =? target then Element i t (content n)
      else Element i t (map (setChildren target content) kids)
  | _ => n
  end.

(** The clean-up pass: every text node whose trimmed text matches a
    metadata pattern is removed from its parent. *)
Fixpoint prune (n : node) : node :=
  match n with
  | Element i t kids =>
      Element i t
        (concat (map (fun k => match k with
                               | TextNode _ d => if removed d then [] else [k]
                               | _ => [prune k]
                               end) kids))
  | _ => n
  end.

(** [element.textContent = s]: one new text node, none for the empty
    string. *)
Definition textChild (fresh : nat) (s : jsstring) : list node :=
  match s with
  | [] => []
  | _ => [TextNode fresh s]
  end.

(** What the parser of [innerHTML] gives back of a text that
    [escapeHtml] has escaped: the character references stand for the
    characters they replaced; a carriage return, together with a line
    feed that follows it, is read as one line feed, and U+0000 is
    ignored. *)
Fixpoint parsedText (s : jsstring) : jsstring :=
  match s with
  | [] => []
  | c :: r =>
      if (c =? 0)%N then parsedText r
      else if (c =? 13)%N then
        LF :: match r with
              | d :: r' => if (d =? LF)%N then parsedText r' else parsedText r
              | [] => []
              end
      else c :: parsedText r
  end.

(** [element.innerHTML = newContent], where [newContent] is the escaped
    texts with a line-break marker between them: the texts parse back to
    text nodes and the markers to empty [br] elements. *)
Fixpoint brChildren (fresh : nat) (texts : list jsstring) : list node :=
  match texts with
  | [] => []
  | [s] => textChild fresh (parsedText s)
  | s :: r =>
      textChild fresh (parsedText s) ++ Element (S fresh) "br" [] :: brChildren (S (S fresh)) r
  end.

Section rewriter.

(** [element.innerHTML], the serializer of the browser. *)
Variable innerHTML : node -> jsstring.

(** The variables of the rewriting loop: the body element, the set
    [replacedElements], and the next unused node identity. *)
Record state := State {
  root : node;
  replacedElements : gset nat;
  fresh : nat
}.

(** The new children of an anchor. *)
Definition rebuilt (para : paragraph) (translations : list paragraph) (fresh : nat)
    (el : node) : list node :=
  let originalHasBr := includes (lit "<br") (innerHTML el) in
  if originalHasBr && (1 <? length translations) then
    brChildren fresh (map (fun p => text_of (translatedText p)) translations)
  else
    textChild fresh
      (if length translations =? 1 then text_of (translatedText para)
       else join [LF; LF] (map (fun p => text_of (translatedText p)) translations)).

(** The body of [paragraphs.forEach((para, idx) => ...)].  No fragment
    has a [textNodes] property, so that the second case of the source is
    never taken. *)
Definition rewriteStep (ps : list paragraph) (st : state) (para : paragraph) : state :=
  if translated para then
    match textNode para with
    | Some tn =>
        {| root := setData tn (text_of (translatedText para)) (root st);
           replacedElements := replacedElements st;
           fresh := fresh st |}
    | None =>
        if bool_decide (element para ∈ replacedElements st) then st
        else
          let translations := translationsOf ps (element para) in
          {| root := setChildren (element para)
                       (rebuilt para translations (fresh st)) (root st);
             replacedElements := {[element para]} ∪ replacedElements st;
             fresh := fresh st + 2 * S (length translations) |}
    end
  else st.

Fixpoint max_id (n : node) : nat :=
  match n with
  | TextNode i _ | Comment i _ => i
  | Element i _ kids => foldr (fun k acc => max_id k `max` acc) i kids
  end.

(** [doc.body] as a node. *)
Definition bodyElement (doc : document) : node :=
  Element (body_id doc) "body" (body doc).

(** The rewriting stage: the loop over the fragments, then the clean-up
    pass; the result is the body that is serialized. *)
Definition rewriteDocument (doc : document) (ps : list paragraph) : node :=
  prune (root (foldl (rewriteStep ps)
                     {| root := bodyElement doc; replacedElements := ∅;
                        fresh := S (max_id (bodyElement doc)) |}
                     ps)).

End rewriter.

(** Where a text node is: its identity, its data, and the identities of
    the elements around it, the parent first. *)
Definition place : Type := nat * jsstring * list nat.

Fixpoint placesUnder (ancestors : list nat) (n : node) : list place :=
  match n with
  | TextNode i d => [(i, d, ancestors)]
  | Comment _ _ => []
  | Element i _ kids => concat (map (placesUnder (i :: ancestors)) kids)
  end.

Definition places (n : node) : list place := placesUnder [] n.

(** The text node at a place belongs to the anchor of a fragment. *)
Definition anchor_holds (p : paragraph) (x : place) : Prop :=
  match textNode p with
  | Some tn => tn = x.1.1
  | None => element p ∈ x.2
  end.

(** The no-data-loss guarantee as the specification words it: what is
    at the anchor of a fragment without translation stays in the
    document. *)
Definition no_loss_as_specified (innerHTML : node -> jsstring)
    (doc : document) (ps : list paragraph) : Prop :=
  forall p x,
    p ∈ ps -> Reconcile.untranslated p = true ->
    x ∈ places (bodyElement doc) -> anchor_holds p x ->
    x ∈ places (rewriteDocument innerHTML doc ps).

(** A tree edit that stops at some elements, whose children it
    replaces, rewrites the data of text nodes and drops some of them. *)
Fixpoint edit (stop : nat -> bool) (content : node -> list node)
    (data : nat -> jsstring -> jsstring) (keep : jsstring -> bool) (n : node) : node :=
  match n with
  | TextNode i d => TextNode i (data i d)
  | Comment _ _ => n
  | Element i t kids =>
      if stop i then Element i t (content n)
      else Element i t
             (concat (map (fun k => match k with
                                    | TextNode _ d =>
                                        if keep d then [edit stop content data keep k] else []
                                    | _ => [edit stop content data keep k]
                                    end) kids))
  end.

(** A page of a diary whose text begins like an excerpt notice. *)
Definition diary : document :=
  {| head := [];
     body_id := 1;
     body := [Element 2 "p" [TextNode 3 (lit "Excerpt from my diary, 3 May.")]] |}.

(** The two stanzas, of which only the first has been translated. *)
Definition stanzas_half_translated : list paragraph :=
  [Reconcile.set_translatedText (Str (lit "Erste Zeile")) (Reconcile.fragment 2 0 (lit "First line"));
   Reconcile.set_translatedText (Str (lit "Second line")) (Reconcile.fragment 2 1 (lit "Second line"))].

End Rewrite.

(** ** Sequences of cache writes *)

Module CacheRun.
Import Cache.

(** One call of [addToCache]. *)
Record put := Put {
  put_text : jsstring;
  put_source : jsstring;
  put_target : jsstring;
  put_result : jsstring
}.

Definition apply (c : cache) (p : put) : cache :=
  addToCache (put_text p) (put_source p) (put_target p) (put_result p) c.

(** The cache after a sequence of calls, starting from the empty [Map]. *)
Definition after (puts : list put) : cache := foldl apply [] puts.

Definition keys (c : cache) : list jsstring := map fst c.

(** [key] is the first key of the [Map], the one [keys().next()] gives. *)
Definition oldest (key : jsstring) (c : cache) : bool :=
  match c with
  | (k, _) :: _ => jsstring_eqb k key
  | [] => false
  end.

Definition sample : cache :=
  [(lit "en-zh-2-2-Hi", lit "A"); (lit "en-zh-3-3-Bye", lit "B")].

End CacheRun.

(** ** Runs of the concurrency gate *)

Module GateRun.
Import Semaphore.

(** The callers that have not entered yet, those already woken first. *)
Definition waiting (st : state) : list nat := woken st ++ queue st.

Definition is_acquire (e : event) : bool :=
  match e with Acquire => true | _ => false end.

Definition is_finish (e : event) : bool :=
  match e with Finish => true | _ => false end.

Definition count (f : event -> bool) (es : list event) : nat :=
  length (filter (fun e => f e = true) es).

(** Call numbers grow along the list. *)
Fixpoint ascending (l : list nat) : Prop :=
  match l with
  | [] => True
  | a :: r => Forall (fun b => a < b) r /\ ascending r
  end.

(** The waiting callers are in the order of their calls, and their
    numbers are below the number of calls made. *)
Definition in_call_order (st : state) : Prop :=
  ascending (waiting st) /\ Forall (fun w => w < calls st) (waiting st).

End GateRun.

(** ** Shape of the list of batches *)

Module GrouperShape.
Import Grouper.

(** A batch is what the record says it is. *)
Definition coherent (g : group) : Prop :=
  paragraphs g <> []
  /\ count g = length (paragraphs g)
  /\ combinedText g = join sep (map originalText (paragraphs g)).

(** A batch the loop closed on its own: it reached the soft minimum or
    the maximum count, or it is a lone oversized fragment. *)
Definition complete (g : group) : Prop :=
  TARGET_MIN_LENGTH <= sum_lengths (map originalText (paragraphs g))
  \/ MAX_BATCH_COUNT <= length (paragraphs g)
  \/ exists p, paragraphs g = [p] /\ oversized p.

Definition lone_oversized (g : group) : Prop :=
  exists p, paragraphs g = [p] /\ oversized p.

(** Every batch but the last is complete or is followed by a lone
    oversized fragment. *)
Fixpoint chained (gs : list group) : Prop :=
  match gs with
  | [] => True
  | g :: r =>
      match r with
      | [] => True
      | g' :: _ => (complete g \/ lone_oversized g') /\ chained r
      end
  end.

(** The same for a list that will be extended: the last batch is
    complete as well. *)
Definition closed (gs : list group) : Prop :=
  chained gs /\ match last gs with Some g => complete g | None => True end.

End GrouperShape.

(** ** Shape of reconciled fragments *)

Module ReconcileShape.
Import Text Reconcile.

(** A string that does not begin with white space. *)
Definition starts_inked (s : jsstring) : Prop :=
  match s with
  | [] => True
  | c :: _ => is_space c = false
  end.

(** A string without white space at either end. *)
Definition trimmed (s : jsstring) : Prop :=
  starts_inked s
  /\ match last s with
     | Some c => is_space c = false
     | None => True
     end.

(** Two fragment records differ at most in [translatedText] and
    [skipReason]. *)
Definition same_fragment (p q : paragraph) : Prop :=
  element p = element q /\ originalText p = originalText q
  /\ rawText p = rawText q /\ index p = index q
  /\ textNode p = textNode q /\ isInline p = isInline q.

(** The lines merged for the fragment at [idx] when the model returned
    more lines than the batch has fragments. *)
Definition segment (lines : list jsstring) (expectedCount idx : nat) : list jsstring :=
  let linesPerPara := ceil_div (length lines) expectedCount in
  let startIdx := idx * linesPerPara in
  slice startIdx ((startIdx + linesPerPara) `min` length lines) lines.

(** Five lines for three fragments. *)
Definition five_lines : list jsstring :=
  [lit "a"; lit "b"; lit "c"; lit "d"; lit "e"].

(** Four lines for three fragments. *)
Definition four_lines : list jsstring :=
  [lit "a"; lit "b"; lit "c"; lit "d"].

End ReconcileShape.

(** ** Traces of the retry controller *)

Module RetryShape.
Import Backend Retry.

(** The milliseconds a task has waited between its attempts. *)
Definition total_wait (trace : list action) : N :=
  foldr (fun a acc => match a with Wait ms => (ms + acc)%N | Try _ => acc end) 0%N trace.

(** The longest a task of a variant can wait in all. *)
Definition wait_budget (b : backend) : N :=
  match b with
  | Zhipu => 1500%N
  | _ => 3000%N
  end.

(** Every attempt runs into the deadline. *)
Definition alwaysAborts : nat -> outcome result := fun _ => Throws AbortError.

(** One failure, then a result. *)
Definition failsOnce (n : nat) : outcome result :=
  match n with
  | 0 => Throws (FetchError (lit "Failed to fetch"))
  | _ => Returns (Translated 2 false)
  end.

(** Every attempt finds the batch in the cache, and a network that is
    down. *)
Definition cachedOffline (s : jsstring) : nat -> attempt_env :=
  fun _ => {| cachedResult := Some s;
              exchange_of := {| latency := 0%N; answer := Rejects (lit "Failed to fetch") |} |}.

(** A batch that is a row of asterisks. *)
Definition stars : group :=
  Grouper.flushed [Reconcile.fragment 1 0 (lit "***")].

End RetryShape.

(** ** The pass over the fragments left without translation *)

Module RetryPass.
Import Text Backend Reconcile.

Section pass.

(** [cleanTranslatedText], the function that strips what the model adds
    around a translation. *)
Variable cleanTranslatedText : jsstring -> jsstring.

(** After [fetch], in the retry pass: the checks of the response, up to
    the trimmed completion ([None] when there is none).  Only gateway B
    has a message of its own for status 401 here. *)
Definition singleCompletion (b : backend) (r : response) : outcome (option jsstring) :=
  if negb (ok r) then
    let errorData := match json r with Some d => error_message d | None => None end in
    match b with
    | Zhipu =>
        Throws (Error (callFailed ++ Cache.dec (status r) ++ lit " - "
                         ++ or_else errorData (statusText r)))
    | _ =>
        if status r =? 401 then Throws (Error openrouterAuthMessage)
        else Throws (Error (callFailed ++ Cache.dec (status r) ++ lit " - "
                              ++ or_else errorData (statusText r)))
    end
  else
    match json r with
    | None => Throws SyntaxError
    | Some d =>
        match choices d with
        | None => Throws TypeError
        | Some content =>
            Returns match content with
                    | Some s => match trim s with
                                | [] => None
                                | t => Some t
                                end
                    | None => None
                    end
        end
    end.

(** The [try] and [catch] of the retry pass for one fragment: a
    completion is cleaned and stored and the skip reason cleared; an
    empty completion is only logged; an error puts the original text in
    [translatedText]. *)
Definition retryOne (b : backend) (para : paragraph) (x : exchange) : paragraph :=
  match fetch (singleTimeout b) x with
  | Throws _ => set_translatedText (Str (originalText para)) para
  | Returns r =>
      match singleCompletion b r with
      | Throws _ => set_translatedText (Str (originalText para)) para
      | Returns (Some t) =>
          set_skipReason Null (set_translatedText (Str (cleanTranslatedText t)) para)
      | Returns None => para
      end
  end.

(** The loop over [untranslatedParagraphs]: the fragments are taken in
    order, one request each; [requests] counts the requests made so
    far, and [world k] is the exchange of request [k]. *)
Fixpoint retryFrom (b : backend) (world : nat -> exchange) (requests : nat)
    (ps : list paragraph) : list paragraph * nat :=
  match ps with
  | [] => ([], requests)
  | para :: rest =>
      if untranslated para then
        let '(rest', n) := retryFrom b world (S requests) rest in
        (retryOne b para (world requests) :: rest', n)
      else
        let '(rest', n) := retryFrom b world requests rest in
        (para :: rest', n)
  end.

Definition retryPass (b : backend) (world : nat -> exchange) (ps : list paragraph)
  : list paragraph * nat :=
  retryFrom b world 0 ps.

End pass.


Definition resolved : paragraph :=
  set_translatedText (Str (lit "Un.")) (fragment 1 0 (lit "One.")).

End RetryPass.

(** ** Shape of extracted fragments *)

Module ExtractShape.
Import Text Dom Extract ReconcileShape.

(** A fragment as the extractor leaves it: a non-empty text without
    white space at either end, no translation and no skip reason yet,
    and flagged inline exactly when it refers to a text node. *)
Definition pristine (p : paragraph) : Prop :=
  originalText p <> [] /\ trimmed (originalText p)
  /\ translatedText p = Undefined /\ skipReason p = Null
  /\ isInline p = bool_decide (textNode p <> None).

(** The fragment [p] was made for the text node [t]: at the nearest
    block-level ancestor of [t], or, when there is none, at [t] itself
    with the trimmed data of [t] and the parent of [t] as element. *)
Definition made_for (body_id : nat) (t : textnode) (p : paragraph) : Prop :=
  (textNode p = None
   /\ exists el, List.find is_block (tn_ancestors t) = Some el /\ element p = node_id el)
  \/ (textNode p = Some (tn_id t)
      /\ List.find is_block (tn_ancestors t) = None
      /\ originalText p = trim (tn_data t)
      /\ element p = match tn_ancestors t with a :: _ => node_id a | [] => body_id end).

(** The [index] of each fragment is its position in the list. *)
Definition numbered (ps : list paragraph) : Prop :=
  forall i p, ps !! i = Some p -> index p = i.

End ExtractShape.

(** ** Shape of the rewritten body *)

Module RewriteShape.
Import Text Dom Metadata Rewrite.

(** The clean-up pass keeps the text node at this place. *)
Definition kept (x : place) : Prop := removed x.1.2 = false.

Definition is_text (n : node) : bool :=
  match n with TextNode _ _ => true | _ => false end.

(** A page with a loose sentence and a paragraph. *)
Definition loose_page : document :=
  {| head := [];
     body_id := 1;
     body := [TextNode 2 (lit "Hello there"); Element 3 "p" [TextNode 4 (lit "Bye")]] |}.

(** The inline fragment of the loose sentence, translated. *)
Definition loose_translated : list paragraph :=
  [{| element := 1; originalText := lit "Hello there"; rawText := lit "Hello there";
      index := 0; skipReason := Null; textNode := Some 2; isInline := true;
      translatedText := Str (lit "Bonjour") |}].

(** The two stanzas, both translated; the first translation has a
    carriage return and a line feed in it. *)
Definition stanzas_translated : list paragraph :=
  [Reconcile.set_translatedText (Str (lit "Erste" ++ [13; 10]%N ++ lit "Zeile"))
     (Reconcile.fragment 2 0 (lit "First line"));
   Reconcile.set_translatedText (Str (lit "Zweite Zeile"))
     (Reconcile.fragment 2 1 (lit "Second line"))].

End RewriteShape.

(** ** The offline stub *)

Module Demo.
Import Text Dom.

(** [LANG_NAMES] *)
Definition LANG_NAMES : list (string * jsstring) :=
  [("en", [33521; 35821]%N);
   ("zh", [20013; 25991]%N);
   ("ja", [26085; 35821]%N);
   ("ko", [38889; 35821]%N);
   ("fr", [27861; 35821]%N);
   ("es", [35199; 29677; 29273; 35821]%N);
   ("de", [24503; 35821]%N);
   ("ru", [20420; 35821]%N);
   ("pt", [33889; 33796; 29273; 35821]%N)]%string.

(** [LANG_NAMES[code]] for a code of the table. *)
Fixpoint langName (table : list (string * jsstring)) (code : string) : option jsstring :=
  match table with
  | [] => None
  | (c, name) :: r => if String.eqb c code then Some name else langName r code
  end.

(** The marker [`[${LANG_NAMES[sourceLang]}→${LANG_NAMES[targetLang]}] `]. *)
Definition marker (sourceLang targetLang : string) : option jsstring :=
  match langName LANG_NAMES sourceLang, langName LANG_NAMES targetLang with
  | Some s, Some t => Some (lit "[" ++ s ++ [8594%N] ++ t ++ lit "] ")
  | _, _ => None
  end.

(** [demoTranslate] on the body: every text node whose trimmed text is
    not empty gets the marker in front of its text. *)
Fixpoint mark (m : jsstring) (n : node) : node :=
  match n with
  | TextNode i d => if nonempty (trim d) then TextNode i (m ++ d) else n
  | Comment _ _ => n
  | Element i t kids => Element i t (map (mark m) kids)
  end.

Definition demoTranslate (sourceLang targetLang : string) (doc : document) : option node :=
  match marker sourceLang targetLang with
  | Some m => Some (mark m (Rewrite.bodyElement doc))
  | None => None
  end.

(** The text node at a place after the stub has run. *)
Definition marked (m : jsstring) (x : Rewrite.place) : Rewrite.place :=
  (x.1.1, if blank x.1.2 then x.1.2 else m ++ x.1.2, x.2).

End Demo.
(** * Properties *)

(** ** Strings *)

Lemma join_length sep l :
  length (join sep l) = sum_lengths l + length sep * (length l - 1).
Proof.
  induction l as [|x [|y r] IH]; simpl in *; [lia | lia |].
  rewrite !length_app, IH. simpl. lia.
Qed.

Lemma sum_lengths_app l1 l2 :
  sum_lengths (l1 ++ l2) = sum_lengths l1 + sum_lengths l2.
Proof. induction l1 as [|x l1 IH]; simpl; [done | rewrite IH; lia]. Qed.

(** ** Batch grouper *)

Section grouper.
Import Grouper.

Lemma inv_init : inv init.
Proof.
  split; simpl; [constructor | done | | | constructor];
    unfold TARGET_MIN_LENGTH, MAX_BATCH_COUNT; lia.
Qed.

Lemma flushed_shape batch :
  1 <= length batch <= MAX_BATCH_COUNT ->
  Forall small batch ->
  sum_lengths (map originalText batch) < TARGET_MIN_LENGTH + TARGET_MAX_LENGTH ->
  batch_shape (flushed batch).
Proof. intros. right. simpl. auto. Qed.

Lemma alone_shape p : oversized p -> batch_shape (alone p).
Proof. intros. left. exists p. auto. Qed.

Lemma Forall_snoc {A} (P : A -> Prop) l x : Forall P l -> P x -> Forall P (l ++ [x]).
Proof. intros. apply Forall_app; split; [done | by constructor]. Qed.

Lemma inv_empty gs : Forall batch_shape gs -> inv (State gs [] 0).
Proof.
  intros. split; simpl; [done | done | | | constructor];
    unfold TARGET_MIN_LENGTH, MAX_BATCH_COUNT; lia.
Qed.

Lemma inv_step st para : inv st -> inv (step st para).
Proof.
  intros [Hg Hl Hb Hc Hs]. unfold step.
  destruct (TARGET_MAX_LENGTH <? length (originalText para)) eqn:Hbig.
  - apply Nat.ltb_lt in Hbig.
    destruct (0 <? length (currentBatch st)) eqn:Hne; simpl.
    + apply Nat.ltb_lt in Hne. apply inv_empty.
      apply Forall_snoc; [apply Forall_snoc; [done|] | by apply alone_shape].
      apply flushed_shape; [unfold MAX_BATCH_COUNT in *; lia | done |].
      rewrite <- Hl. unfold TARGET_MAX_LENGTH; lia.
    + split; simpl; [|done..].
      apply Forall_snoc; [done | by apply alone_shape].
  - apply Nat.ltb_ge in Hbig.
    assert (Hsum : sum_lengths (map originalText (currentBatch st ++ [para]))
                   = currentLength st + length (originalText para)).
    { rewrite map_app, sum_lengths_app, <- Hl. simpl. lia. }
    assert (Hall : Forall small (currentBatch st ++ [para])).
    { by apply Forall_snoc. }
    destruct ((TARGET_MIN_LENGTH <=? currentLength st + length (originalText para))
              || (MAX_BATCH_COUNT <=? length (currentBatch st ++ [para]))) eqn:Hfl.
    + apply inv_empty, Forall_snoc; [done|].
      apply flushed_shape; [| done |].
      * rewrite length_app. simpl. lia.
      * rewrite Hsum. lia.
    + apply orb_false_iff in Hfl as [H1 H2].
      apply Nat.leb_gt in H1, H2. split; simpl; done.
Qed.

Lemma inv_loop ps st : inv st -> inv (loop ps st).
Proof.
  revert st. induction ps as [|p ps IH]; intros st H; [done|].
  apply IH, inv_step, H.
Qed.

Lemma groupParagraphs_shape ps : Forall batch_shape (groupParagraphs ps).
Proof.
  unfold groupParagraphs, finish.
  destruct (inv_loop ps init inv_init) as [Hg Hl Hb Hc Hs].
  destruct (0 <? length (currentBatch (loop ps init))) eqn:Hne; [|done].
  apply Nat.ltb_lt in Hne.
  apply Forall_snoc; [done|].
  apply flushed_shape; [lia | done |]. rewrite <- Hl. lia.
Qed.

Lemma flatten_snoc gs g : flatten (gs ++ [g]) = flatten gs ++ paragraphs g.
Proof. unfold flatten. rewrite map_app, concat_app. simpl. by rewrite app_nil_r. Qed.

Lemma step_keeps_order st para :
  flatten (groupedParagraphs (step st para)) ++ currentBatch (step st para)
  = (flatten (groupedParagraphs st) ++ currentBatch st) ++ [para].
Proof.
  unfold step.
  destruct (TARGET_MAX_LENGTH <? length (originalText para)).
  - destruct (0 <? length (currentBatch st)) eqn:Hne; simpl.
    + rewrite !flatten_snoc. simpl. by rewrite app_nil_r.
    + apply Nat.ltb_ge in Hne.
      destruct (currentBatch st); [|simpl in Hne; lia].
      rewrite flatten_snoc. simpl. by rewrite !app_nil_r.
  - destruct (_ || _); simpl.
    + rewrite flatten_snoc. simpl. by rewrite app_nil_r, app_assoc.
    + by rewrite app_assoc.
Qed.

Lemma loop_keeps_order ps st :
  flatten (groupedParagraphs (loop ps st)) ++ currentBatch (loop ps st)
  = (flatten (groupedParagraphs st) ++ currentBatch st) ++ ps.
Proof.
  revert st. induction ps as [|p ps IH]; intros st.
  - simpl. by rewrite app_nil_r.
  - change (loop (p :: ps) st) with (loop ps (step st p)).
    rewrite IH, step_keeps_order, <- app_assoc. done.
Qed.

Lemma finish_flatten st :
  flatten (finish st) = flatten (groupedParagraphs st) ++ currentBatch st.
Proof.
  unfold finish. destruct (0 <? length (currentBatch st)) eqn:Hne.
  - by rewrite flatten_snoc.
  - apply Nat.ltb_ge in Hne.
    destruct (currentBatch st); [by rewrite app_nil_r | simpl in Hne; lia].
Qed.

(** C10: the batches are an ordered partition of the fragment list:
    concatenating the batches' fragment lists in batch order gives back
    exactly the list that was grouped. *)
Theorem grouper_flatten_identity (ps : list paragraph) :
  flatten (groupParagraphs ps) = ps.
Proof.
  unfold groupParagraphs. rewrite finish_flatten, loop_keeps_order. done.
Qed.

Lemma grouper_window_counterexample : ~ window_as_specified two_medium.
Proof.
  intros H.
  destruct (H (flushed two_medium)) as [Hlen | (p & Hp & _)].
  - vm_compute. apply list_elem_of_here.
  - vm_compute in Hlen. lia.
  - discriminate Hp.
Qed.

(** C2 (amended): a batch is either one fragment longer than the hard
    maximum, or one to eight fragments, none longer than the hard
    maximum, whose lengths total less than soft minimum plus hard
    maximum, so that the combined text has at most 813 code units; and a
    fragment longer than the hard maximum is alone in its batch. *)
Theorem grouper_window_amended (ps : list paragraph) (g : group) :
  g ∈ groupParagraphs ps ->
  ((exists p, paragraphs g = [p] /\ oversized p /\ combinedText g = originalText p)
   \/ (1 <= length (paragraphs g) <= 8
       /\ Forall small (paragraphs g)
       /\ sum_lengths (map originalText (paragraphs g)) <= 799
       /\ length (combinedText g) <= 813))
  /\ (forall p, p ∈ paragraphs g -> oversized p -> paragraphs g = [p]).
Proof.
  intros Hin.
  pose proof (groupParagraphs_shape ps) as Hall.
  rewrite Forall_forall in Hall. specialize (Hall g Hin).
  destruct Hall as [(p & Hp & Hbig & Hc) | (Hn & Hs & Hsum & Hc)].
  - split; [left; eauto|].
    intros q Hq _. rewrite Hp in Hq. by apply list_elem_of_singleton in Hq as ->.
  - split.
    + right. unfold MAX_BATCH_COUNT, TARGET_MIN_LENGTH, TARGET_MAX_LENGTH in *.
      repeat split; [lia | lia | done | lia |].
      rewrite Hc, join_length, length_map. simpl. lia.
    + intros q Hq Hbig. rewrite Forall_forall in Hs.
      specialize (Hs q Hq). unfold small, oversized in *. lia.
Qed.

Lemma grouper_window_amended_witness :
  flushed two_medium ∈ groupParagraphs two_medium
  /\ length (combinedText (flushed two_medium)) <= 813.
Proof.
  assert (Hin : flushed two_medium ∈ groupParagraphs two_medium).
  { vm_compute. apply list_elem_of_here. }
  split; [exact Hin|].
  destruct (grouper_window_amended two_medium (flushed two_medium) Hin)
    as [[(p & Hp & _) | (_ & _ & _ & Hlen)] _].
  - discriminate Hp.
  - exact Hlen.
Defined.

End grouper.

(** ** Translation cache *)

Section cache.
Import Cache.

Lemma get_set_same key result c : get key (set key result c) = Some result.
Proof.
  induction c as [|[k v] c IH]; simpl.
  - unfold jsstring_eqb. by rewrite bool_decide_eq_true_2.
  - destruct (jsstring_eqb k key) eqn:E; simpl; rewrite E; done.
Qed.

(** A translation that was stored is found again under its own text. *)
Lemma getFromCache_addToCache text src tgt result c :
  getFromCache text src tgt (addToCache text src tgt result c) = Some result.
Proof. apply get_set_same. Qed.

(** The key only sees the length of a text and its first 20 code units. *)
Lemma getCacheKey_fingerprint t1 t2 src tgt :
  length t1 = length t2 ->
  substring0 20 t1 = substring0 20 t2 ->
  getCacheKey t1 src tgt = getCacheKey t2 src tgt.
Proof.
  intros Hlen Hpre. unfold getCacheKey, substring0 in *.
  rewrite !length_take, !take_take, Hlen.
  replace (20 `min` 100) with 20 by lia. by rewrite Hpre.
Qed.

(** C5 (the code departs from it): two different batch texts of the same
    language pair get the same key, and the translation stored for the
    first is returned for the second. *)
Theorem cache_key_aliases_distinct_texts :
  text_her <> text_him
  /\ getCacheKey text_her (lit "en") (lit "zh")
     = getCacheKey text_him (lit "en") (lit "zh")
  /\ forall result c,
       getFromCache text_him (lit "en") (lit "zh")
         (addToCache text_her (lit "en") (lit "zh") result c) = Some result.
Proof.
  assert (Hk : getCacheKey text_her (lit "en") (lit "zh")
               = getCacheKey text_him (lit "en") (lit "zh")).
  { by apply getCacheKey_fingerprint. }
  split; [discriminate | split; [exact Hk|]].
  intros result c. unfold getFromCache. rewrite <- Hk. apply get_set_same.
Qed.

End cache.

(** ** Concurrency gate *)

Section gate.
Import Semaphore.

Lemma step_occupied maxConcurrent st e st' :
  (e = Acquire -> woken st = []) ->
  step maxConcurrent st e = Some st' ->
  occupied st <= maxConcurrent -> occupied st' <= maxConcurrent.
Proof.
  unfold occupied. intros Hq Hstep Hle. destruct e; simpl in Hstep.
  - rewrite (Hq eq_refl) in *.
    destruct (maxConcurrent <=? running st) eqn:E;
      inversion Hstep; subst; simpl in *; [lia|].
    apply Nat.leb_gt in E. lia.
  - destruct (woken st) as [|w ws]; [done|].
    inversion Hstep; subst; simpl in *. lia.
  - destruct (running st) as [|r]; [done|].
    destruct (queue st) as [|q qs]; inversion Hstep; subst; simpl in *; [lia|].
    rewrite length_app. simpl. lia.
Qed.

(** As long as no [acquire] is called between the wake-up of a waiter and
    its resumption, the counter stays within the maximum. *)
Lemma gate_bound_settled maxConcurrent es : forall st st',
  settled maxConcurrent es st ->
  run maxConcurrent es st = Some st' ->
  occupied st <= maxConcurrent -> running st' <= maxConcurrent.
Proof.
  induction es as [|e es IH]; intros st st' Hs Hrun Hle; simpl in *.
  - inversion Hrun; subst. unfold occupied in Hle. lia.
  - destruct Hs as [Hq Hs].
    destruct (step maxConcurrent st e) as [st1|] eqn:Hstep; [|done].
    eapply IH; [exact Hs | exact Hrun |].
    eapply step_occupied; eauto.
Qed.

(** C8 (the code departs from it): with a maximum of one, a task is
    running and a second caller waits; the task finishes and wakes the
    waiter; before the waiter's continuation runs, a third call finds
    the counter below the maximum and starts; the waiter then resumes
    without testing the counter again, and two tasks run. *)
Theorem gate_exceeds_maximum :
  exists st,
    run 1 [Acquire; Acquire; Finish; Acquire; Resume] init = Some st
    /\ running st = 2.
Proof. eexists. split; reflexivity. Qed.

End gate.

(** ** Response reconciler *)

Section reconcile.
Import Text Reconcile.

Lemma shortfallReason_nonempty got expected : shortfallReason got expected <> [].
Proof. discriminate. Qed.

Lemma at_index_lookup lines i :
  i < length lines -> exists s, lines !! i = Some s /\ at_index lines i = Str s.
Proof.
  intros Hi. destruct (lookup_lt_is_Some_2 lines i Hi) as [s Hs].
  exists s. unfold at_index. by rewrite Hs.
Qed.

(** Gateway A on a shortfall, fragment by fragment. *)
Lemma assignZhipu_shortfall ps lines i p :
  length lines < length ps ->
  ps !! i = Some p ->
  assignZhipu ps lines !! i
  = Some (if i <? length lines then set_translatedText (at_index lines i) p
          else set_skipReason (Str (shortfallReason (length lines) (length ps)))
                 (set_translatedText Null p)).
Proof.
  intros Hlt Hp. unfold assignZhipu.
  destruct (length lines =? length ps) eqn:E1; [apply Nat.eqb_eq in E1; lia|].
  destruct (length ps <? length lines) eqn:E2; [apply Nat.ltb_lt in E2; lia|].
  rewrite list_lookup_imap, Hp. done.
Qed.

Lemma assignKeepOriginal_lookup ps lines i p :
  ps !! i = Some p ->
  assignKeepOriginal ps lines !! i
  = Some (if i <? length lines then set_translatedText (at_index lines i) p
          else set_translatedText (Str (originalText p)) p).
Proof. intros Hp. unfold assignKeepOriginal. rewrite list_lookup_imap, Hp. done. Qed.

Lemma untranslated_null p : untranslated (set_translatedText Null p) = true.
Proof. done. Qed.

Lemma untranslated_original p :
  untranslated (set_translatedText (Str (originalText p)) p) = true.
Proof.
  unfold untranslated, strict_eq_str, jsstring_eqb. simpl.
  rewrite bool_decide_eq_true_2 by done. apply orb_true_r.
Qed.

(** On gateway A's live path the shortfall policy is as specified. *)
Lemma reconcileZhipu_shortfall_as_specified :
  shortfall_as_specified (fun ps c => translatedLines c (length ps)) reconcileZhipu.
Proof.
  intros ps c i p Hlt Hi Hp. unfold reconcileZhipu in Hp.
  destruct (lookup_lt_is_Some_2 ps i) as [p0 Hp0].
  { apply lookup_lt_Some in Hp. unfold assignZhipu in Hp.
    repeat case_match; by rewrite length_imap in Hp. }
  rewrite (assignZhipu_shortfall _ _ _ _ Hlt Hp0) in Hp.
  destruct (i <? _) eqn:E; [apply Nat.ltb_lt in E; lia|].
  inversion Hp; subst. split; [done|].
  eexists. split; [done | apply shortfallReason_nonempty].
Qed.

(** The scenario of the specification on gateway A: three fragments,
    two segments. *)
Example reconcileZhipu_three_two :
  map (fun p => (translatedText p, skipReason p))
      (reconcileZhipu three_fragments two_segments)
  = [(Str (lit "Un."), Null); (Str (lit "Deux."), Null);
     (Null, Str (shortfallReason 2 3))].
Proof. vm_compute. reflexivity. Qed.

(** On gateway B the third fragment gets its own text back, and no skip
    reason. *)
Lemma reconcile_shortfall_counterexample :
  ~ shortfall_as_specified (fun _ c => trimmed_pieces (split_double c)) reconcileOpenRouter.
Proof.
  intros H.
  destruct (H three_fragments two_segments 2
              (set_translatedText (Str (lit "Three.")) (fragment 3 2 (lit "Three."))))
    as [Hnull _].
  - vm_compute. lia.
  - vm_compute. lia.
  - vm_compute. reflexivity.
  - discriminate Hnull.
Qed.

(** What the fragment at [i] looks like after a shortfall on a path that
    keeps the original text. *)
Lemma assignKeepOriginal_shortfall ps lines i p :
  ps !! i = Some p ->
  exists q, assignKeepOriginal ps lines !! i = Some q
    /\ originalText q = originalText p
    /\ (i < length lines -> translatedText q = at_index lines i /\ lines !! i <> None)
    /\ (length lines <= i ->
          translatedText q = Str (originalText p)
          /\ skipReason q = skipReason p
          /\ untranslated q = true).
Proof.
  intros Hp. rewrite (assignKeepOriginal_lookup _ _ _ _ Hp).
  eexists. split; [reflexivity|].
  destruct (i <? _) eqn:E.
  - apply Nat.ltb_lt in E. split; [done|]. split; [|lia].
    intros _. split; [done|].
    destruct (at_index_lookup _ _ E) as (s & Hs & _). by rewrite Hs.
  - apply Nat.ltb_ge in E. split; [done|]. split; [lia|].
    intros _. split; [done|]. split; [done|]. apply untranslated_original.
Qed.

(** C4 (amended): when the split has fewer segments than the batch has
    fragments, the segments go in order to the first fragments, and no
    later fragment receives a segment.  On gateway A's live path a later
    fragment gets [translatedText = null] and a non-empty skip reason;
    on gateway B's path, and on a cache hit, it gets its own original
    text as [translatedText] and keeps its skip reason.  Either way the
    pipeline's test finds it untranslated, so the retry pass takes it. *)
Theorem reconcile_shortfall_amended (ps : list paragraph) (text : jsstring) (i : nat) (p : paragraph) :
  ps !! i = Some p ->
  (forall lines, lines = translatedLines text (length ps) ->
     length lines < length ps ->
     exists q, reconcileZhipu ps text !! i = Some q
       /\ originalText q = originalText p
       /\ (i < length lines -> translatedText q = at_index lines i /\ lines !! i <> None)
       /\ (length lines <= i ->
             translatedText q = Null
             /\ (exists r, skipReason q = Str r /\ r <> [])
             /\ untranslated q = true))
  /\ (forall lines, lines = trimmed_pieces (split_double text) ->
     exists q, reconcileOpenRouter ps text !! i = Some q
       /\ originalText q = originalText p
       /\ (i < length lines -> translatedText q = at_index lines i /\ lines !! i <> None)
       /\ (length lines <= i ->
             translatedText q = Str (originalText p)
             /\ skipReason q = skipReason p
             /\ untranslated q = true))
  /\ (forall lines,
     lines = trimmed_pieces (split_double (strip_leading_marker (strip_markers text))) ->
     exists q, reconcileCached ps text !! i = Some q
       /\ originalText q = originalText p
       /\ (i < length lines -> translatedText q = at_index lines i /\ lines !! i <> None)
       /\ (length lines <= i ->
             translatedText q = Str (originalText p)
             /\ skipReason q = skipReason p
             /\ untranslated q = true)).
Proof.
  intros Hp. split; [|split].
  - intros lines -> Hlt. unfold reconcileZhipu.
    rewrite (assignZhipu_shortfall _ _ _ _ Hlt Hp).
    eexists. split; [reflexivity|].
    destruct (i <? _) eqn:E.
    + apply Nat.ltb_lt in E. split; [done|]. split; [|lia].
      intros _. split; [done|].
      destruct (at_index_lookup _ _ E) as (s & Hs & _). by rewrite Hs.
    + apply Nat.ltb_ge in E. split; [done|]. split; [lia|].
      intros _. split; [done|]. split; [|done].
      eexists. split; [done | apply shortfallReason_nonempty].
  - intros lines ->. by apply assignKeepOriginal_shortfall.
  - intros lines ->. by apply assignKeepOriginal_shortfall.
Qed.

Lemma reconcile_shortfall_amended_witness :
  exists q, reconcileZhipu three_fragments two_segments !! 2 = Some q
            /\ translatedText q = Null.
Proof.
  destruct (reconcile_shortfall_amended three_fragments two_segments 2
              (fragment 3 2 (lit "Three.")) eq_refl) as [HA _].
  destruct (HA _ eq_refl) as (q & Hq & _ & _ & Hrest).
  - vm_compute. lia.
  - exists q. split; [exact Hq|]. apply Hrest. vm_compute. lia.
Defined.

End reconcile.

(** ** Back ends *)

Section backend.
Import Backend.

Lemma fetch_deadline t x :
  (t <= latency x)%N -> fetch (Some t) x = Throws AbortError.
Proof. intros H. unfold fetch. by rewrite (proj2 (N.leb_le _ _) H). Qed.

Lemma zhipuCompletion_failed r :
  ok r = false \/ json r = None -> exists e, zhipuCompletion r = Throws e.
Proof.
  intros [H | H]; unfold zhipuCompletion.
  - rewrite H. simpl. destruct (status r =? 401); eauto.
  - destruct (ok r); simpl; [rewrite H; eauto|].
    destruct (status r =? 401); eauto.
Qed.

Lemma openrouterCompletion_failed r :
  ok r = false \/ json r = None -> exists e, openrouterCompletion r = Throws e.
Proof.
  intros [H | H]; unfold openrouterCompletion.
  - rewrite H. simpl. destruct (status r =? 401); [eauto|].
    destruct (json r) as [d|]; [|eauto].
    destruct (error_message d) as [[|c m]|]; eauto.
  - rewrite H. destruct (ok r); simpl; [eauto|].
    destruct (status r =? 401); eauto.
Qed.

(** A failed exchange makes the batch request of a hosted gateway throw. *)
Lemma batchRequest_failed b x :
  failed x -> exists e, batchRequest b x = Throws e.
Proof.
  intros Hf. unfold batchRequest, fetch, failed in *.
  destruct (batchTimeout b) as [t|].
  - destruct (t <=? latency x)%N; [eauto|].
    destruct (answer x) as [m | r]; [eauto|].
    destruct b; auto using zhipuCompletion_failed, openrouterCompletion_failed.
  - destruct (answer x) as [m | r]; [eauto|].
    destruct b; auto using zhipuCompletion_failed, openrouterCompletion_failed.
Qed.

(** The custom end point answers a failed exchange with its input. *)
Lemma custom_failed input x :
  failed x -> translateWithCustomAPI input x = Returns input.
Proof.
  unfold failed, translateWithCustomAPI, fetch.
  destruct (answer x) as [m | r]; [done|].
  intros [H | H].
  - by rewrite H.
  - rewrite H. by destruct (ok r).
Qed.

(** The custom end point waits for the answer however long it takes, and
    returns its input on a server error. *)
Lemma adapter_counterexample : ~ adapter_as_specified Custom.
Proof.
  intros [_ H].
  destruct (H (lit "<p>Hello</p>") serverError) as [e He].
  - right. reflexivity.
  - discriminate He.
Qed.

(** C9 (amended): the two hosted gateways abort a batch request after
    120 seconds and a single-fragment request after 60 seconds, and a
    request that fails (deadline passed, network failure, status that is
    not a success, unreadable body) throws; the custom end point sets no
    deadline and answers every failure with the input text it was given. *)
Theorem adapter_failure_amended (b : backend) (input : jsstring) (x : exchange) :
  (b <> Custom ->
     batchTimeout b = Some 120000%N /\ singleTimeout b = Some 60000%N
     /\ ((120000 <= latency x)%N -> translationRequest b input x = Throws AbortError)
     /\ (failed x -> exists e, translationRequest b input x = Throws e))
  /\ (batchTimeout Custom = None /\ singleTimeout Custom = None
      /\ (failed x -> translationRequest Custom input x = Returns input)
      /\ (forall t, translationRequest Custom input {| latency := t; answer := answer x |}
                    = translationRequest Custom input x)).
Proof.
  split.
  - intros Hb.
    assert (Ht : batchTimeout b = Some 120000%N) by (by destruct b).
    split; [done|]. split; [by destruct b|]. split.
    + intros Hl.
      assert (translationRequest b input x = batchRequest b x) as -> by (by destruct b).
      unfold batchRequest. rewrite Ht, fetch_deadline; done.
    + intros Hf.
      assert (translationRequest b input x = batchRequest b x) as -> by (by destruct b).
      by apply batchRequest_failed.
  - split; [done|]. split; [done|]. split; [apply custom_failed | done].
Qed.

Lemma adapter_failure_amended_witness :
  exists e, translationRequest Zhipu (lit "Hello") serverError = Throws e.
Proof.
  destruct (adapter_failure_amended Zhipu (lit "Hello") serverError) as [H _].
  destruct H as (_ & _ & _ & H); [discriminate|].
  apply H. right. reflexivity.
Defined.

End backend.

(** ** Retry controller *)

Section retry.
Import Backend Retry.

Lemma hosted_cases b : b <> Custom -> b = Zhipu \/ b = OpenRouter.
Proof. destruct b; auto. done. Qed.

Lemma retrying_three_throws b body e0 e1 e2 :
  body 0 = Throws e0 -> body 1 = Throws e1 -> body 2 = Throws e2 ->
  retrying b body
  = Some (Failed e2, [Try 0; Wait (backoff b 1); Try 1; Wait (backoff b 2); Try 2]).
Proof.
  intros H0 H1 H2. unfold retrying. simpl. rewrite H0. simpl. rewrite H1. simpl.
  by rewrite H2.
Qed.

(** The loop never runs out of fuel. *)
Lemma retrying_total b body : exists r trace, retrying b body = Some (r, trace).
Proof.
  unfold retrying. simpl.
  destruct (body 0); [eauto|]. simpl.
  destruct (body 1); [eauto|]. simpl.
  destruct (body 2); eauto.
Qed.

(** C6: a batch task whose first two attempts throw and whose third
    returns a result returns that result, after three attempts and two
    waits of which the second is twice the first (500 then 1000
    milliseconds on gateway A, 1000 then 2000 on gateway B), neither
    longer than two seconds. *)
Theorem retry_third_attempt_succeeds
    (b : backend) (body : nat -> outcome result) (e0 e1 : error) (r : result) :
  b <> Custom ->
  body 0 = Throws e0 -> body 1 = Throws e1 -> body 2 = Returns r ->
  exists d,
    retrying b body = Some (r, [Try 0; Wait d; Try 1; Wait (2 * d)%N; Try 2])
    /\ d = match b with Zhipu => 500%N | _ => 1000%N end
    /\ (d < 2 * d <= 2000)%N.
Proof.
  intros Hb H0 H1 H2. unfold retrying. simpl. rewrite H0. simpl. rewrite H1. simpl.
  rewrite H2.
  destruct (hosted_cases b Hb) as [-> | ->].
  - exists 500%N. split; [reflexivity|]. split; [reflexivity | lia].
  - exists 1000%N. split; [reflexivity|]. split; [reflexivity | lia].
Qed.

Lemma retry_third_attempt_succeeds_witness :
  retrying Zhipu failsTwice
  = Some (Translated 1 false, [Try 0; Wait 500%N; Try 1; Wait 1000%N; Try 2]).
Proof.
  destruct (retry_third_attempt_succeeds Zhipu failsTwice
              (FetchError (lit "Failed to fetch")) AbortError (Translated 1 false))
    as (d & Hrun & -> & _); [discriminate | reflexivity..|].
  exact Hrun.
Defined.

Lemma tryBatch_unauthorized b g env resp :
  b <> Custom ->
  cachedResult env = None ->
  fetch (batchTimeout b) (exchange_of env) = Returns resp ->
  status resp = 401 ->
  tryBatch b g env = Throws (Error (authMessage b)).
Proof.
  intros Hb Hc Hf Hs. unfold tryBatch, batchRequest. rewrite Hc, Hf.
  destruct (hosted_cases b Hb) as [-> | ->];
    unfold zhipuCompletion, openrouterCompletion, ok; rewrite Hs; done.
Qed.

(** Whatever its body does, the loop begins with an attempt. *)
Lemma retrying_first_attempt b body :
  exists r trace, retrying b body = Some (r, Try 0 :: trace).
Proof.
  unfold retrying. simpl.
  destruct (body 0); [eauto|]. simpl.
  destruct (body 1); [eauto|]. simpl.
  destruct (body 2); eauto.
Qed.

Variable punctuationOrSymbol : N -> bool.

(** A batch that passes the two tests goes through the retry loop. *)
Lemma batchTask_runs b g world :
  skips punctuationOrSymbol g = false ->
  batchTask punctuationOrSymbol b g world = retrying b (fun n => tryBatch b g (world n)).
Proof.
  unfold skips, batchTask. intros [H1 H2]%orb_false_iff. simpl. by rewrite H1, H2.
Qed.

(** A batch that fails one of them is skipped before the loop. *)
Lemma batchTask_skipped b g world :
  skips punctuationOrSymbol g = true ->
  batchTask punctuationOrSymbol b g world = Some (Skipped, []).
Proof.
  unfold skips, batchTask. intros H. simpl.
  destruct (length (combinedText g) <? 1); [done|]. simpl in H. by rewrite H.
Qed.

(** C7 (amended): when the requests of a batch that passed the two skip
    tests and is not in the cache are answered with status 401, each
    attempt throws an error with a message of its own, different from
    the message of every other failing status, and the [catch] of the
    retry loop treats it like any other error: the batch is attempted
    three times with the usual waits and its task then returns a
    failure that carries that message.  The dispatch is not halted:
    every batch gets a task, and every other batch that passes the skip
    tests is attempted at least once. *)
Theorem auth_failure_amended
    (b : backend) (gs : list group) (worlds : nat -> nat -> attempt_env)
    (i : nat) (g : group) :
  b <> Custom ->
  gs !! i = Some g ->
  skips punctuationOrSymbol g = false ->
  (forall n, n < maxRetries ->
     cachedResult (worlds i n) = None
     /\ exists resp, fetch (batchTimeout b) (exchange_of (worlds i n)) = Returns resp
                     /\ status resp = 401) ->
  dispatch punctuationOrSymbol b gs worlds !! i
  = Some (Some (Failed (Error (authMessage b)),
                [Try 0; Wait (backoff b 1); Try 1; Wait (backoff b 2); Try 2]))
  /\ (forall code reason, authMessage b <> callFailed ++ Cache.dec code ++ reason)
  /\ length (dispatch punctuationOrSymbol b gs worlds) = length gs
  /\ (forall j g',
        j <> i -> gs !! j = Some g' -> skips punctuationOrSymbol g' = false ->
        exists r trace,
          dispatch punctuationOrSymbol b gs worlds !! j = Some (Some (r, Try 0 :: trace))).
Proof.
  intros Hb Hg Hskip Hw. split; [|split; [|split]].
  - unfold dispatch. rewrite list_lookup_imap, Hg. simpl. f_equal.
    rewrite batchTask_runs by done.
    apply (retrying_three_throws _ _ (Error (authMessage b)) (Error (authMessage b))).
    all: match goal with |- tryBatch _ _ (_ _ ?n) = _ =>
           destruct (Hw n) as (Hc & resp & Hf & Hs); [unfold maxRetries; lia|];
           by eapply tryBatch_unauthorized end.
  - intros code reason. destruct (hosted_cases b Hb) as [-> | ->]; discriminate.
  - unfold dispatch. by rewrite length_imap.
  - intros j g' _ Hg' Hskip'. unfold dispatch. rewrite list_lookup_imap, Hg'. simpl.
    rewrite batchTask_runs by done.
    destruct (retrying_first_attempt b (fun n => tryBatch b g' (worlds j n)))
      as (r & trace & ->).
    by exists r, trace.
Qed.

End retry.

(** A rejected credential is tried three times on gateway A (the text of
    the batch has letters, which are in neither category). *)
Lemma auth_counterexample : ~ Retry.auth_as_specified Retry.asciiMarks Backend.Zhipu.
Proof.
  intros H.
  specialize (H Retry.oneGroup Retry.alwaysUnauthorized
                (Retry.Failed (Backend.Error Backend.zhipuAuthMessage))
                [Retry.Try 0; Retry.Wait 500%N; Retry.Try 1; Retry.Wait 1000%N; Retry.Try 2]).
  assert (Hthree : Retry.attempts
                     [Retry.Try 0; Retry.Wait 500%N; Retry.Try 1; Retry.Wait 1000%N;
                      Retry.Try 2] = 1).
  { apply H; [reflexivity | reflexivity | | reflexivity].
    eexists. split; reflexivity. }
  discriminate Hthree.
Qed.

Lemma auth_failure_amended_witness :
  Retry.dispatch Retry.asciiMarks Backend.OpenRouter [Retry.oneGroup; Retry.oneGroup]
    (Retry.refusedThenServed (lit "Bonjour.")) !! 0
  = Some (Some (Retry.Failed (Backend.Error Backend.openrouterAuthMessage),
                [Retry.Try 0; Retry.Wait 1000%N; Retry.Try 1; Retry.Wait 2000%N;
                 Retry.Try 2])).
Proof.
  destruct (auth_failure_amended Retry.asciiMarks Backend.OpenRouter
              [Retry.oneGroup; Retry.oneGroup]
              (Retry.refusedThenServed (lit "Bonjour.")) 0 Retry.oneGroup) as [H _].
  - discriminate.
  - reflexivity.
  - reflexivity.
  - intros n _. split; [reflexivity|]. eexists. split; reflexivity.
  - exact H.
Defined.

(** The batch after a refused one is requested and translated. *)
Example dispatch_after_refusal :
  Retry.dispatch Retry.asciiMarks Backend.Zhipu [Retry.oneGroup; Retry.oneGroup]
    (Retry.refusedThenServed (lit "Bonjour."))
  = [Some (Retry.Failed (Backend.Error Backend.zhipuAuthMessage),
           [Retry.Try 0; Retry.Wait 500%N; Retry.Try 1; Retry.Wait 1000%N; Retry.Try 2]);
     Some (Retry.Translated 1 false, [Retry.Try 0])].
Proof. vm_compute. reflexivity. Qed.

(** ** Trimming *)

Section trimming.
Import Text.

Lemma nonempty_trimStart s : nonempty (trimStart s) = has_ink s.
Proof.
  induction s as [|c s IH]; [done|]. unfold has_ink in *. simpl.
  destruct (is_space c); simpl; [exact IH | done].
Qed.

Lemma nonempty_reverse (s : jsstring) : nonempty (reverse s) = nonempty s.
Proof.
  destruct s as [|c s]; [done|]. rewrite reverse_cons.
  by destruct (reverse s).
Qed.

Lemma has_ink_app s1 s2 : has_ink (s1 ++ s2) = has_ink s1 || has_ink s2.
Proof. apply existsb_app. Qed.

Lemma has_ink_reverse s : has_ink (reverse s) = has_ink s.
Proof.
  induction s as [|c s IH]; [done|].
  rewrite reverse_cons, has_ink_app, IH. simpl.
  rewrite orb_false_r. apply orb_comm.
Qed.

Lemma has_ink_trimStart s : has_ink (trimStart s) = has_ink s.
Proof.
  induction s as [|c s IH]; [done|]. unfold has_ink in *. simpl.
  destruct (is_space c) eqn:E; simpl; [exact IH | by rewrite E].
Qed.

(** A string trims to something exactly when it has ink. *)
Lemma nonempty_trim s : nonempty (trim s) = has_ink s.
Proof.
  unfold trim, trimEnd.
  rewrite nonempty_reverse, nonempty_trimStart, has_ink_reverse.
  apply has_ink_trimStart.
Qed.

Lemma blank_ink s : blank s = negb (has_ink s).
Proof. unfold blank. by rewrite nonempty_trim. Qed.

Lemma length_nonempty (s : jsstring) : (0 <? length s) = nonempty s.
Proof. by destruct s. Qed.

Lemma has_ink_nonempty s : has_ink s = true -> nonempty s = true.
Proof. by destruct s. Qed.

End trimming.

(** ** Documents *)

Section dom.
Import Text Dom.

Lemma elem_of_concat_map {A B} (f : A -> list B) (l : list A) (y : B) :
  y ∈ concat (map f l) <-> exists x, x ∈ l /\ y ∈ f x.
Proof.
  induction l as [|a l IH]; simpl.
  - split; [by intros H%elem_of_nil | by intros (x & H%elem_of_nil & _)].
  - rewrite elem_of_app, IH. split.
    + intros [H | (x & Hx & Hy)]; [exists a | exists x]; split; auto;
        apply elem_of_cons; auto.
    + intros (x & [-> | Hx]%elem_of_cons & Hy); [by left | right; eauto].
Qed.

(** Induction over a tree, with the hypothesis for all children. *)
Lemma node_tree_ind (P : node -> Prop) :
  (forall i d, P (TextNode i d)) ->
  (forall i d, P (Comment i d)) ->
  (forall i t kids, Forall P kids -> P (Element i t kids)) ->
  forall n, P n.
Proof.
  intros HT HC HE. fix IH 1. intros [i d | i d | i t kids].
  - apply HT.
  - apply HC.
  - apply HE. induction kids as [|k kids IHk]; constructor; [apply IH | exact IHk].
Qed.

Lemma has_text_kids d kids :
  foldr (fun k acc => has_text d k \/ acc) False kids <-> Exists (has_text d) kids.
Proof.
  induction kids as [|k kids IH]; simpl.
  - split; [done | by intros H; inversion H].
  - rewrite Exists_cons, IH. done.
Qed.

Lemma void_br_kids kids :
  foldr (fun k acc => void_br k /\ acc) True kids <-> Forall void_br kids.
Proof.
  induction kids as [|k kids IH]; simpl.
  - split; [constructor | done].
  - rewrite Forall_cons, IH. done.
Qed.

(** The text of a node holds the ink of every text node below it. *)
Lemma has_text_ink d n : has_text d n -> has_ink d = true -> has_ink (textContent n) = true.
Proof.
  intros Hn Hd. revert Hn. induction n as [i d' | i d' | i t kids IH] using node_tree_ind.
  - simpl. by intros ->.
  - done.
  - simpl. rewrite has_text_kids. intros Hex.
    induction kids as [|k kids IHk]; [by inversion Hex|].
    simpl. rewrite has_ink_app.
    apply Forall_cons in IH as [IHhd IHtl].
    apply Exists_cons in Hex as [Hk | Hrest].
    + by rewrite IHhd.
    + rewrite IHk; [apply orb_true_r | done..].
Qed.

(** Every ancestor the walker records for a text node is one of the
    ancestors it started with, or an element that encloses the node and
    has no [br] with children below it. *)
Lemma textNodesUnder_ancestors n : forall anc t,
  void_br n ->
  t ∈ textNodesUnder anc n ->
  forall a, a ∈ tn_ancestors t -> a ∈ anc \/ (encloses (tn_data t) a /\ void_br a).
Proof.
  induction n as [i d | i d | i tg kids IH] using node_tree_ind; intros anc t Hv Ht a Ha.
  - simpl in Ht. apply list_elem_of_singleton in Ht as ->. by left.
  - simpl in Ht. by apply elem_of_nil in Ht.
  - simpl in Ht. apply elem_of_concat_map in Ht as (k & Hk & Ht).
    rewrite Forall_forall in IH.
    assert (Hvk : void_br k).
    { simpl in Hv. destruct Hv as [_ Hv]. apply void_br_kids in Hv.
      rewrite Forall_forall in Hv. by apply Hv. }
    destruct (IH k Hk _ _ Hvk Ht a Ha) as [Hin | Henc].
    + apply elem_of_cons in Hin as [-> | Hin]; [|by left].
      right. split; [|done]. simpl. apply has_text_kids, Exists_exists.
      exists k. split; [done|].
      clear -Ht. revert Ht. generalize (Element i tg kids :: anc).
      induction k as [j d | j d | j tg' kids' IHk] using node_tree_ind; intros anc' Ht.
      * simpl in Ht. by apply list_elem_of_singleton in Ht as ->.
      * simpl in Ht. by apply elem_of_nil in Ht.
      * simpl in Ht. apply elem_of_concat_map in Ht as (k' & Hk' & Ht).
        simpl. apply has_text_kids, Exists_exists. exists k'. split; [done|].
        rewrite Forall_forall in IHk. by eapply IHk.
    + by right.
Qed.

Lemma textNodesOf_ancestors roots t a :
  Forall void_br roots ->
  t ∈ textNodesOf roots ->
  a ∈ tn_ancestors t ->
  encloses (tn_data t) a /\ void_br a.
Proof.
  intros Hv Ht Ha. unfold textNodesOf in Ht.
  apply elem_of_concat_map in Ht as (k & Hk & Ht).
  rewrite Forall_forall in Hv.
  destruct (textNodesUnder_ancestors k [] t (Hv k Hk) Ht a Ha) as [Hin | H]; [|done].
  by apply elem_of_nil in Hin.
Qed.

End dom.

(** ** Fragment extractor *)

Section extractor.
Import Text Dom Extract.
Variable innerHTML : node -> jsstring.

Lemma brChild_reading st k : reading st -> reading (brChild st k).
Proof.
  intros Hr. destruct k as [i d | i d | i t kids]; simpl; [| done |].
  - destruct (_ || _); [|done].
    destruct Hr as [Hs | Hc]; [by left | right]. simpl.
    by rewrite has_ink_app, Hc.
  - destruct (String.eqb t "br").
    + rewrite nonempty_trim.
      destruct (has_ink (currentText st)) eqn:Hc.
      * left. exists (trim (currentText st)). simpl. split.
        -- apply elem_of_app. right. by apply list_elem_of_singleton.
        -- by rewrite nonempty_trim.
      * destruct Hr as [Hs | Hc']; [by left | congruence].
    + destruct (String.eqb t "a").
      * destruct (nonempty (trim _)); [|done].
        destruct Hr as [Hs | Hc]; [by left | right]. simpl.
        destruct (_ && _); rewrite !has_ink_app, Hc; done.
      * destruct (_ && _); [|done].
        destruct Hr as [Hs | Hc]; [by left | right]. simpl.
        by rewrite has_ink_app, Hc.
Qed.

Lemma brChild_starts st k d :
  has_text d k -> void_br k -> has_ink d = true -> reading (brChild st k).
Proof.
  intros Ht Hv Hd. destruct k as [i d' | i d' | i t kids]; simpl in *; [| done |].
  - subst d'. rewrite nonempty_trim, Hd, orb_true_r. right. simpl.
    by rewrite has_ink_app, Hd, orb_true_r.
  - assert (Hink : has_ink (textContent (Element i t kids)) = true).
    { by apply (has_text_ink d). }
    simpl in Hink.
    destruct (String.eqb t "br") eqn:Hbr.
    + apply String.eqb_eq in Hbr. destruct Hv as [Hk _].
      rewrite (Hk Hbr) in Ht. done.
    + destruct (String.eqb t "a").
      * rewrite nonempty_trim, Hink. right. simpl.
        rewrite has_ink_app, Hink. apply orb_true_r.
      * rewrite nonempty_trim, Hink, (has_ink_nonempty _ Hink). right. simpl.
        rewrite has_ink_app, Hink. apply orb_true_r.
Qed.

Lemma foldl_brChild_reading kids : forall st,
  reading st -> reading (foldl brChild st kids).
Proof.
  induction kids as [|k kids IH]; intros st H; [done|].
  simpl. apply IH, brChild_reading, H.
Qed.

Lemma foldl_brChild_starts d kids : forall st,
  Exists (has_text d) kids -> Forall void_br kids -> has_ink d = true ->
  reading (foldl brChild st kids).
Proof.
  induction kids as [|k kids IH]; intros st Hex Hv Hd; [by inversion Hex|].
  apply Forall_cons in Hv as [Hvk Hv]. simpl.
  apply Exists_cons in Hex as [Hk | Hrest].
  - apply foldl_brChild_reading. by eapply brChild_starts.
  - by apply IH.
Qed.

(** A block that encloses an inked text node splits into at least one
    non-empty sub-paragraph. *)
Lemma splitAtBr_nonempty d i t kids :
  encloses d (Element i t kids) -> void_br (Element i t kids) -> has_ink d = true ->
  exists s, s ∈ splitAtBr kids /\ nonempty s = true.
Proof.
  intros He Hv Hd. simpl in He, Hv. apply has_text_kids in He.
  destruct Hv as [_ Hv]. apply void_br_kids in Hv.
  pose proof (foldl_brChild_starts d kids (BrState [] []) He Hv Hd) as Hr.
  unfold splitAtBr. set (st := foldl brChild _ kids) in *.
  rewrite nonempty_trim. destruct (has_ink (currentText st)) eqn:Hc.
  - exists (trim (currentText st)). split.
    + apply elem_of_app. right. by apply list_elem_of_singleton.
    + by rewrite nonempty_trim.
  - destruct Hr as [(s & Hs & Hne) | Hc']; [|congruence].
    by exists s.
Qed.

Lemma push_old ps e o r tn p : p ∈ ps -> p ∈ push ps e o r tn.
Proof. intros. apply elem_of_app. by left. Qed.

Lemma push_new ps e o r tn :
  exists p, p ∈ push ps e o r tn /\ element p = e /\ textNode p = tn
            /\ isInline p = bool_decide (tn <> None).
Proof.
  eexists. split; [apply elem_of_app; right; by apply list_elem_of_singleton|]. done.
Qed.

Lemma pushAll_old subs : forall ps e p, p ∈ ps -> p ∈ pushAll ps e subs.
Proof.
  induction subs as [|s subs IH]; intros ps e p Hp; [done|].
  change (pushAll ps e (s :: subs))
    with (pushAll (if 1 <=? length s then push ps e s s None else ps) e subs).
  apply IH. destruct (1 <=? length s); [by apply push_old | done].
Qed.

Lemma pushAll_new subs : forall ps e s,
  s ∈ subs -> nonempty s = true ->
  exists p, p ∈ pushAll ps e subs /\ element p = e /\ isInline p = false.
Proof.
  induction subs as [|s' subs IH]; intros ps e s Hs Hne; [by apply elem_of_nil in Hs|].
  change (pushAll ps e (s' :: subs))
    with (pushAll (if 1 <=? length s' then push ps e s' s' None else ps) e subs).
  apply elem_of_cons in Hs as [<- | Hs].
  - destruct s as [|c s]; [done|].
    destruct (push_new ps e (c :: s) (c :: s) None) as (p & Hp & He & _ & Hi).
    exists p. split; [by apply pushAll_old | done].
  - by eapply IH.
Qed.

(** The walk only adds fragments. *)
Lemma visit_old b st t p : p ∈ paragraphs st -> p ∈ paragraphs (visit innerHTML b st t).
Proof.
  intros Hp. unfold visit.
  destruct (0 <? _); [|done].
  destruct (List.find _ _) as [el|]; [|by apply push_old].
  destruct (bool_decide _); [done|].
  destruct (_ && _); [by apply pushAll_old|].
  destruct (1 <=? _); [by apply push_old | done].
Qed.

Lemma foldl_visit_old b ts : forall st p,
  p ∈ paragraphs st -> p ∈ paragraphs (foldl (visit innerHTML b) st ts).
Proof.
  induction ts as [|t ts IH]; intros st p Hp; [done|].
  simpl. by apply IH, visit_old.
Qed.

Lemma find_is_block_elem anc el :
  List.find is_block anc = Some el -> el ∈ anc.
Proof. intros H. apply find_some in H as [H _]. by apply list_elem_of_In. Qed.

(** A visited block gets a fragment anchored at it. *)
Lemma visit_block b st t el :
  met t -> anchored st ->
  List.find is_block (tn_ancestors t) = Some el ->
  anchored (visit innerHTML b st t)
  /\ exists p, p ∈ paragraphs (visit innerHTML b st t)
               /\ element p = node_id el /\ isInline p = false.
Proof.
  intros [Hink Hanc] Hst Hfind. unfold visit.
  rewrite length_nonempty, nonempty_trim, Hink, Hfind.
  destruct (Hanc el (find_is_block_elem _ _ Hfind)) as [Henc Hv].
  destruct (bool_decide (node_id el ∈ processedElements st)) eqn:Hproc.
  { apply bool_decide_eq_true in Hproc. split; [done | by apply Hst]. }
  assert (Htext : has_ink (textContent el) = true).
  { destruct el; try done. by apply (has_text_ink (tn_data t)). }
  assert (Htrim : (1 <=? length (trim (textContent el))) = true).
  { pose proof (nonempty_trim (textContent el)) as H. rewrite Htext in H.
    destruct (trim (textContent el)); done. }
  rewrite Htrim, andb_true_r.
  assert (Hnew : forall ps',
    (forall p, p ∈ paragraphs st -> p ∈ ps') ->
    (exists p, p ∈ ps' /\ element p = node_id el /\ isInline p = false) ->
    anchored {| processedElements := {[node_id el]} ∪ processedElements st;
                paragraphs := ps' |}
    /\ exists p, p ∈ ps' /\ element p = node_id el /\ isInline p = false).
  { intros ps' Hold Hex. split; [|done].
    intros e He. simpl in *. apply elem_of_union in He as [He | He].
    - apply elem_of_singleton in He as ->. done.
    - destruct (Hst e He) as (p & Hp & Hpe). exists p. split; [by apply Hold | done]. }
  destruct (includes _ _).
  - apply Hnew; [intros p Hp; by apply pushAll_old|].
    destruct el as [| | i tg kids]; try done.
    destruct (splitAtBr_nonempty _ _ _ _ Henc Hv Hink) as (s & Hs & Hne).
    by eapply pushAll_new.
  - apply Hnew; [intros p Hp; by apply push_old|].
    destruct (push_new (paragraphs st) (node_id el) (trim (textContent el))
                (textContent el) None) as (p & Hp & He & _ & Hi).
    by exists p.
Qed.

Lemma visit_inline b st t :
  met t -> anchored st ->
  List.find is_block (tn_ancestors t) = None ->
  anchored (visit innerHTML b st t)
  /\ exists p, p ∈ paragraphs (visit innerHTML b st t)
               /\ textNode p = Some (tn_id t) /\ isInline p = true.
Proof.
  intros [Hink Hanc] Hst Hfind. unfold visit.
  rewrite length_nonempty, nonempty_trim, Hink, Hfind.
  split.
  - intros e He. destruct (Hst e He) as (p & Hp & Hpe).
    exists p. split; [by apply push_old | done].
  - eexists. split; [apply elem_of_app; right; by apply list_elem_of_singleton|]. done.
Qed.

Lemma visit_anchored b st t : met t -> anchored st -> anchored (visit innerHTML b st t).
Proof.
  intros Ht Hst. destruct (List.find is_block (tn_ancestors t)) as [el|] eqn:Hf.
  - by eapply visit_block.
  - by apply visit_inline.
Qed.

(** A node of the walk is accounted for by the end of the walk. *)
Lemma walk_accounts b ts : forall st t,
  Forall met ts -> anchored st -> t ∈ ts ->
  exists p, p ∈ paragraphs (foldl (visit innerHTML b) st ts) /\ accounts_for p t.
Proof.
  induction ts as [|u ts IH]; intros st t Hall Hst Ht; [by apply elem_of_nil in Ht|].
  apply Forall_cons in Hall as [Hu Hall]. simpl.
  apply elem_of_cons in Ht as [-> | Ht].
  - destruct (List.find is_block (tn_ancestors u)) as [el|] eqn:Hf.
    + destruct (visit_block b st u el Hu Hst Hf) as (_ & p & Hp & He & Hi).
      exists p. split; [by apply foldl_visit_old|].
      left. split; [done|]. exists el. split; [by apply find_is_block_elem | done].
    + destruct (visit_inline b st u Hu Hst Hf) as (_ & p & Hp & Htn & Hi).
      exists p. split; [by apply foldl_visit_old|]. right. done.
  - apply IH; [done | by apply visit_anchored | done].
Qed.

Lemma in_script_or_style_parent t :
  in_script_or_style t = false -> blank (tn_data t) = false -> acceptNode t = true.
Proof.
  intros Hs Hb. unfold acceptNode. rewrite Hb.
  destruct (tn_ancestors t) as [|a anc] eqn:E; [done|].
  unfold in_script_or_style in Hs. rewrite E in Hs. simpl in Hs.
  apply orb_false_iff in Hs as [Hs _]. by rewrite Hs.
Qed.

(** C3 (amended): in a parsed document, every text node below the body
    that is not white space only and not inside a script or style
    container is accounted for by an extracted fragment: a fragment
    anchored at an element that contains the node, or the inline
    fragment of the node itself when the node has no block-level
    ancestor below the body.  (The walker is rooted at the body: text of
    the head is not visited.) *)
Theorem extract_accounts_for_body_text (doc : document) (t : textnode) :
  Forall void_br (body doc) ->
  t ∈ textNodesOf (body doc) ->
  blank (tn_data t) = false ->
  in_script_or_style t = false ->
  exists p, p ∈ extractParagraphs innerHTML doc /\ accounts_for p t.
Proof.
  intros Hv Ht Hb Hs. unfold extractParagraphs.
  apply walk_accounts.
  - apply Forall_forall. intros u Hu.
    apply list_elem_of_filter in Hu as [Hacc Hu]. split.
    + unfold acceptNode in Hacc. rewrite blank_ink in Hacc.
      by destruct (has_ink (tn_data u)).
    + intros a Ha. by eapply textNodesOf_ancestors.
  - intros e He. by apply elem_of_empty in He.
  - apply list_elem_of_filter. split; [by apply in_script_or_style_parent | done].
Qed.

End extractor.

(** The title of a chapter is a text node of the document that no
    fragment accounts for. *)
Lemma extract_no_loss_counterexample :
  ~ Extract.no_loss_as_specified Dom.plainInnerHTML Extract.titled_chapter.
Proof.
  intros H.
  destruct (H {| Dom.tn_id := 2; Dom.tn_data := lit "Chapter One";
                 Dom.tn_ancestors := [Dom.Element 1 "title" [Dom.TextNode 2 (lit "Chapter One")]] |})
    as (p & Hp & Hacc).
  - vm_compute. apply list_elem_of_here.
  - vm_compute. reflexivity.
  - vm_compute. reflexivity.
  - vm_compute in Hp. apply list_elem_of_singleton in Hp as ->.
    destruct Hacc as [(_ & el & Hel & He) | (Hi & _)].
    + simpl in Hel. apply list_elem_of_singleton in Hel as ->. discriminate He.
    + discriminate Hi.
Qed.

Lemma extract_accounts_for_body_text_witness :
  exists p, p ∈ Extract.extractParagraphs Dom.plainInnerHTML Extract.stanzas
            /\ Extract.accounts_for p
                 {| Dom.tn_id := 5; Dom.tn_data := lit "Second line";
                    Dom.tn_ancestors :=
                      [Dom.Element 2 "p" [Dom.TextNode 3 (lit "First line");
                                          Dom.Element 4 "br" [];
                                          Dom.TextNode 5 (lit "Second line")]] |}.
Proof.
  apply (extract_accounts_for_body_text Dom.plainInnerHTML Extract.stanzas).
  - repeat constructor; simpl; intuition discriminate.
  - vm_compute. apply list_elem_of_further, list_elem_of_here.
  - vm_compute. reflexivity.
  - vm_compute. reflexivity.
Defined.

(** The fragments of the two stanzas and of the loose word. *)
Example extract_stanzas :
  map (fun p => (element p, originalText p, textNode p))
      (Extract.extractParagraphs Dom.plainInnerHTML Extract.stanzas)
  = [(2, lit "First line", None); (2, lit "Second line", None);
     (1, lit "Fin", Some 6)].
Proof. vm_compute. reflexivity. Qed.

(** ** Document rewriter *)

Section rewriter.
Import Text Dom Metadata Rewrite.

Lemma concat_map_singletons {A B} (f g : A -> B) (l : list A) :
  Forall (fun a => f a = g a) l ->
  map f l = concat (map (fun a => [g a]) l).
Proof. induction 1 as [|a l Ha _ IH]; simpl; [done | by rewrite Ha, IH]. Qed.

Lemma concat_map_ext {A B} (f g : A -> list B) (l : list A) :
  Forall (fun a => f a = g a) l -> concat (map f l) = concat (map g l).
Proof. induction 1 as [|a l Ha _ IH]; simpl; [done | by rewrite Ha, IH]. Qed.

(** The three updates of the rewriter are tree edits. *)
Lemma setData_edit target s n :
  setData target s n
  = edit (fun _ => false) (fun _ => []) (fun i d => if i =? target then s else d)
         (fun _ => true) n.
Proof.
  induction n as [i d | i d | i t kids IH] using node_tree_ind; simpl.
  - by destruct (i =? target).
  - done.
  - f_equal. rewrite (concat_map_singletons _ _ _ IH).
    apply concat_map_ext, Forall_forall. by intros [| |] _.
Qed.

Lemma setChildren_edit target content n :
  setChildren target content n
  = edit (fun i => i =? target) content (fun _ d => d) (fun _ => true) n.
Proof.
  induction n as [i d | i d | i t kids IH] using node_tree_ind; simpl; [done..|].
  destruct (i =? target); [done|].
  f_equal. rewrite (concat_map_singletons _ _ _ IH).
  apply concat_map_ext, Forall_forall. by intros [| |] _.
Qed.

Lemma prune_edit n :
  prune n
  = edit (fun _ => false) (fun _ => []) (fun _ d => d) (fun d => negb (removed d)) n.
Proof.
  induction n as [i d | i d | i t kids IH] using node_tree_ind; simpl; [done..|].
  f_equal. apply concat_map_ext.
  eapply Forall_impl; [exact IH|]. intros [j d | j d | j t' kids'] Hk; simpl in *.
  - by destruct (removed d).
  - done.
  - by rewrite Hk.
Qed.

(** The ancestors a walk starts with are ancestors of every place. *)
Lemma placesUnder_ancestors n : forall anc x a,
  x ∈ placesUnder anc n -> a ∈ anc -> a ∈ x.2.
Proof.
  induction n as [i d | i d | i t kids IH] using node_tree_ind; intros anc x a Hx Ha.
  - simpl in Hx. by apply list_elem_of_singleton in Hx as ->.
  - simpl in Hx. by apply elem_of_nil in Hx.
  - simpl in Hx. apply elem_of_concat_map in Hx as (k & Hk & Hx).
    rewrite Forall_forall in IH.
    eapply IH; [done.. |]. by apply list_elem_of_further.
Qed.

(** A text node stays where it is under an edit that stops at none of
    its ancestors and keeps its data. *)
Lemma edit_keeps stop content data keep n : forall anc i d path,
  (i, d, path) ∈ placesUnder anc n ->
  (forall a, a ∈ path -> stop a = false) ->
  keep d = true ->
  (i, data i d, path) ∈ placesUnder anc (edit stop content data keep n).
Proof.
  induction n as [j e | j e | j t kids IH] using node_tree_ind;
    intros anc i d path Hx Hstop Hkeep.
  - simpl in *. apply list_elem_of_singleton in Hx. inversion Hx; subst.
    by apply list_elem_of_singleton.
  - simpl in Hx. by apply elem_of_nil in Hx.
  - simpl in Hx. apply elem_of_concat_map in Hx as (k & Hk & Hx).
    assert (Hj : stop j = false).
    { apply Hstop.
      apply (placesUnder_ancestors k (j :: anc) (i, d, path) j Hx), list_elem_of_here. }
    simpl. rewrite Hj. simpl.
    apply elem_of_concat_map.
    exists (edit stop content data keep k). split.
    + apply elem_of_concat_map. exists k. split; [done|].
      destruct k as [i' d' | i' d' | i' t' kids'].
      * simpl in Hx. apply list_elem_of_singleton in Hx. inversion Hx; subst.
        rewrite Hkeep. apply list_elem_of_here.
      * apply list_elem_of_here.
      * apply list_elem_of_here.
    + rewrite Forall_forall in IH. by apply IH.
Qed.

Variable innerHTML : node -> jsstring.

(** One step of the loop leaves alone what is at no translated anchor. *)
Lemma rewriteStep_keeps ps st para x :
  x ∈ places (root st) ->
  (translated para = true -> ~ anchor_holds para x) ->
  x ∈ places (root (rewriteStep innerHTML ps st para)).
Proof.
  intros Hx Hfree. unfold rewriteStep.
  destruct (translated para); [|done].
  specialize (Hfree eq_refl). unfold anchor_holds in Hfree.
  destruct x as [[i d] path]. simpl in Hfree.
  destruct (textNode para) as [tn|].
  - simpl. rewrite setData_edit.
    pose proof (edit_keeps (fun _ => false) (fun _ => [])
                  (fun i d => if i =? tn then text_of (translatedText para) else d)
                  (fun _ => true) (root st) [] i d path Hx) as H.
    simpl in H. destruct (i =? tn) eqn:E.
    + apply Nat.eqb_eq in E. congruence.
    + by apply H.
  - destruct (bool_decide _); [done|]. simpl. rewrite setChildren_edit.
    apply (edit_keeps _ _ (fun _ d => d) (fun _ => true) (root st) [] i d path Hx);
      [|done].
    intros a Ha. apply Nat.eqb_neq. intros ->. done.
Qed.

Lemma rewriteLoop_keeps ps x qs : forall st,
  x ∈ places (root st) ->
  (forall q, q ∈ qs -> translated q = true -> ~ anchor_holds q x) ->
  x ∈ places (root (foldl (rewriteStep innerHTML ps) st qs)).
Proof.
  induction qs as [|q qs IH]; intros st Hx Hfree; [done|].
  simpl. apply IH.
  - apply rewriteStep_keeps; [done|]. apply Hfree, list_elem_of_here.
  - intros q' Hq'. by apply Hfree, list_elem_of_further.
Qed.

(** C1 (amended): every text node of the body, and so every text node
    at the anchor of a fragment without translated text, that is at the
    anchor of no translated fragment (it is not the text node of a
    translated inline fragment, and neither its parent nor any other
    element around it is the element of a translated block fragment)
    and whose trimmed text matches no metadata pattern is in the
    rewritten body with the same data under the same ancestors. *)
Theorem rewrite_keeps_untouched_text
    (doc : document) (ps : list paragraph) (x : place) :
  x ∈ places (bodyElement doc) ->
  (forall q, q ∈ ps -> translated q = true -> ~ anchor_holds q x) ->
  removed x.1.2 = false ->
  x ∈ places (rewriteDocument innerHTML doc ps).
Proof.
  intros Hx Hfree Hmeta. unfold rewriteDocument.
  set (st := foldl _ _ ps).
  assert (Hst : x ∈ places (root st)) by (by apply rewriteLoop_keeps).
  destruct x as [[i d] path]. rewrite prune_edit.
  apply (edit_keeps _ _ (fun _ d => d) (fun d => negb (removed d)) (root st) [] i d path Hst);
    [done|]. simpl in Hmeta. by rewrite Hmeta.
Qed.

End rewriter.

(** The paragraph of the diary has no translation, and its text, which
    begins like an excerpt notice, is removed by the clean-up pass. *)
Lemma rewrite_no_loss_counterexample :
  ~ Rewrite.no_loss_as_specified Dom.plainInnerHTML Rewrite.diary
      (Extract.extractParagraphs Dom.plainInnerHTML Rewrite.diary).
Proof.
  intros H.
  specialize (H (Reconcile.fragment 2 0 (lit "Excerpt from my diary, 3 May."))
                (3, lit "Excerpt from my diary, 3 May.", [2; 1])).
  assert (Hin : (3, lit "Excerpt from my diary, 3 May.", [2; 1])
                ∈ Rewrite.places
                    (Rewrite.rewriteDocument Dom.plainInnerHTML Rewrite.diary
                       (Extract.extractParagraphs Dom.plainInnerHTML Rewrite.diary))).
  { apply H.
    - vm_compute. apply list_elem_of_here.
    - vm_compute. reflexivity.
    - vm_compute. apply list_elem_of_here.
    - vm_compute. apply list_elem_of_here. }
  vm_compute in Hin. by apply elem_of_nil in Hin.
Qed.

(** Two fragments share the paragraph of the stanzas; the first is
    translated, the second is not: the paragraph is rewritten with the
    translation of the first alone, and the second line is gone. *)
Example rewrite_shared_anchor :
  Rewrite.places
    (Rewrite.rewriteDocument Dom.plainInnerHTML Extract.stanzas
       Rewrite.stanzas_half_translated)
  = [(7, lit "Erste Zeile", [2; 1]); (6, lit "Fin", [1])].
Proof. vm_compute. reflexivity. Qed.

Lemma rewrite_keeps_untouched_text_witness :
  (6, lit "Fin", [1])
  ∈ Rewrite.places
      (Rewrite.rewriteDocument Dom.plainInnerHTML Extract.stanzas
         Rewrite.stanzas_half_translated).
Proof.
  apply (rewrite_keeps_untouched_text Dom.plainInnerHTML Extract.stanzas
           Rewrite.stanzas_half_translated (6, lit "Fin", [1])).
  - vm_compute. do 2 apply list_elem_of_further. apply list_elem_of_here.
  - intros q Hq Ht Ha.
    apply elem_of_cons in Hq as [-> | Hq].
    + vm_compute in Ha. apply list_elem_of_singleton in Ha. discriminate Ha.
    + apply list_elem_of_singleton in Hq as ->. vm_compute in Ht. discriminate Ht.
  - vm_compute. reflexivity.
Defined.

(** ** More on the translation cache *)

Section cache_more.
Import Cache CacheRun.

Lemma eqb_key_true (k : jsstring) : jsstring_eqb k k = true.
Proof. unfold jsstring_eqb. by apply bool_decide_eq_true_2. Qed.

Lemma eqb_key_false (k k' : jsstring) : k <> k' -> jsstring_eqb k k' = false.
Proof. intros. unfold jsstring_eqb. by apply bool_decide_eq_false_2. Qed.

Lemma eqb_key_spec (k k' : jsstring) : jsstring_eqb k k' = true <-> k = k'.
Proof. unfold jsstring_eqb. apply bool_decide_eq_true. Qed.

Lemma get_set_other key key' result c :
  key' <> key -> get key' (set key result c) = get key' c.
Proof.
  intros Hne. induction c as [|[k v] c IH]; simpl.
  - rewrite eqb_key_false; [done | congruence].
  - destruct (jsstring_eqb k key) eqn:E; simpl.
    + apply eqb_key_spec in E as ->. by rewrite eqb_key_false by congruence.
    + by rewrite IH.
Qed.

Lemma get_absent key c : key ∉ keys c -> get key c = None.
Proof.
  induction c as [|[k v] c IH]; [done|]. simpl. intros Hn.
  apply not_elem_of_cons in Hn as [Hk Hn].
  rewrite eqb_key_false by congruence. by apply IH.
Qed.

Lemma keys_set key result c :
  keys (set key result c) = if bool_decide (key ∈ keys c) then keys c else keys c ++ [key].
Proof.
  induction c as [|[k v] c IH]; simpl; [done|].
  destruct (jsstring_eqb k key) eqn:E; simpl.
  - apply eqb_key_spec in E as ->.
    rewrite bool_decide_eq_true_2; [done | apply list_elem_of_here].
  - rewrite IH. assert (k <> key) by (intros ->; by rewrite eqb_key_true in E).
    destruct (bool_decide (key ∈ keys c)) eqn:D.
    + apply bool_decide_eq_true in D.
      rewrite bool_decide_eq_true_2; [done | by apply list_elem_of_further].
    + apply bool_decide_eq_false in D.
      rewrite bool_decide_eq_false_2; [done|].
      intros [?|?]%elem_of_cons; congruence.
Qed.

Lemma NoDup_set key result c : NoDup (keys c) -> NoDup (keys (set key result c)).
Proof.
  intros Hc. rewrite keys_set. destruct (bool_decide _) eqn:D; [done|].
  apply bool_decide_eq_false in D. apply NoDup_app. split; [done|].
  split; [|apply NoDup_singleton].
  intros x Hx ->%list_elem_of_singleton. done.
Qed.

Lemma length_set key result c : length (set key result c) <= S (length c).
Proof.
  induction c as [|[k v] c IH]; simpl; [lia|].
  destruct (jsstring_eqb k key); simpl; lia.
Qed.

Lemma addToCache_bounded text src tgt result c :
  length c <= MAX_CACHE_SIZE -> length (addToCache text src tgt result c) <= MAX_CACHE_SIZE.
Proof.
  intros Hc. unfold addToCache.
  destruct (MAX_CACHE_SIZE <=? length c) eqn:E.
  - apply Nat.leb_le in E.
    pose proof (length_set (getCacheKey text src tgt) result (delete_first c)) as H.
    unfold delete_first in *. rewrite length_drop in H.
    unfold MAX_CACHE_SIZE in *. lia.
  - apply Nat.leb_gt in E.
    pose proof (length_set (getCacheKey text src tgt) result c). lia.
Qed.

Lemma addToCache_NoDup text src tgt result c :
  NoDup (keys c) -> NoDup (keys (addToCache text src tgt result c)).
Proof.
  intros Hc. unfold addToCache. apply NoDup_set.
  destruct (_ <=? _); [|done]. unfold delete_first.
  destruct c as [|e c]; [done|]. simpl. rewrite drop_0.
  by apply NoDup_cons in Hc as [_ Hc].
Qed.

(** X1: a translation that was just stored is what the next lookup of
    the same text and language pair returns, whatever the cache held. *)
Theorem cache_put_then_get (text src tgt result : jsstring) (c : cache) :
  getFromCache text src tgt (addToCache text src tgt result c) = Some result.
Proof. unfold getFromCache, addToCache. apply get_set_same. Qed.

(** X2: after any sequence of [addToCache] calls on the empty cache, the
    cache holds at most [MAX_CACHE_SIZE] entries, and no key twice. *)
Theorem cache_never_overflows (puts : list put) :
  length (after puts) <= MAX_CACHE_SIZE /\ NoDup (keys (after puts)).
Proof.
  unfold after.
  assert (H : forall c, length c <= MAX_CACHE_SIZE /\ NoDup (keys c) ->
                length (foldl apply c puts) <= MAX_CACHE_SIZE
                /\ NoDup (keys (foldl apply c puts))).
  { induction puts as [|p puts IH]; intros c [Hl Hn]; [done|].
    simpl. apply IH. split.
    - by apply addToCache_bounded.
    - by apply addToCache_NoDup. }
  apply H. split; [unfold MAX_CACHE_SIZE; simpl; lia | constructor].
Qed.

(** X3: what a lookup finds after a write: the written result under the
    written key; nothing under the oldest key when the cache was full
    (it has been evicted); and under any other key what was there
    before. *)
Theorem cache_lookup_after_put
    (text src tgt result key : jsstring) (c : cache) :
  NoDup (keys c) ->
  get key (addToCache text src tgt result c)
  = if jsstring_eqb key (getCacheKey text src tgt) then Some result
    else if (MAX_CACHE_SIZE <=? length c) && oldest key c then None
    else get key c.
Proof.
  intros Hn. unfold addToCache.
  destruct (jsstring_eqb key (getCacheKey text src tgt)) eqn:E.
  - apply eqb_key_spec in E as ->. apply get_set_same.
  - assert (key <> getCacheKey text src tgt).
    { intros ->. by rewrite eqb_key_true in E. }
    rewrite get_set_other by done.
    destruct (MAX_CACHE_SIZE <=? length c); [|done]. simpl.
    destruct c as [|[k v] c]; [done|].
    unfold delete_first. simpl. rewrite drop_0.
    destruct (jsstring_eqb k key) eqn:Ek; [|done].
    apply eqb_key_spec in Ek as ->.
    apply get_absent. simpl in Hn. by apply NoDup_cons in Hn as [Hn _].
Qed.

Lemma cache_lookup_after_put_witness :
  get (lit "en-zh-2-2-Hi") (addToCache (lit "Bye") (lit "en") (lit "zh") (lit "C") sample)
  = Some (lit "A").
Proof.
  rewrite (cache_lookup_after_put (lit "Bye") (lit "en") (lit "zh") (lit "C")
             (lit "en-zh-2-2-Hi") sample).
  - vm_compute. reflexivity.
  - vm_compute. repeat constructor; rewrite ?elem_of_cons, ?elem_of_nil;
      intuition discriminate.
Defined.

(** X4: the key of a text only depends on the language pair, the length
    of the text and its first 20 code units. *)
Theorem cache_key_sees_length_and_prefix (t1 t2 src tgt : jsstring) :
  length t1 = length t2 ->
  substring0 20 t1 = substring0 20 t2 ->
  getCacheKey t1 src tgt = getCacheKey t2 src tgt.
Proof. apply getCacheKey_fingerprint. Qed.

Lemma cache_key_sees_length_and_prefix_witness :
  getCacheKey text_her (lit "ja") (lit "ko") = getCacheKey text_him (lit "ja") (lit "ko").
Proof.
  apply cache_key_sees_length_and_prefix; reflexivity.
Defined.

End cache_more.

(** ** More on the concurrency gate *)

Section gate_more.
Import Semaphore GateRun.

(** X5: as long as no [acquire] is called between the wake-up of a
    waiter and its resumption, the number of running tasks stays within
    the maximum. *)
Theorem gate_bound_without_overtaking
    (maxConcurrent : nat) (es : list event) (st : state) :
  settled maxConcurrent es init ->
  run maxConcurrent es init = Some st ->
  running st <= maxConcurrent.
Proof.
  intros Hs Hrun. eapply gate_bound_settled; [exact Hs | exact Hrun|].
  unfold occupied. simpl. lia.
Qed.

Lemma gate_bound_without_overtaking_witness :
  exists st, run 1 [Acquire; Acquire; Finish; Resume; Acquire] init = Some st
             /\ running st <= 1.
Proof.
  eexists. split; [reflexivity|].
  apply (gate_bound_without_overtaking 1 [Acquire; Acquire; Finish; Resume; Acquire]).
  - simpl. repeat split; (done || discriminate).
  - reflexivity.
Defined.

Lemma ascending_app l1 l2 :
  ascending (l1 ++ l2)
  <-> ascending l1 /\ ascending l2 /\ Forall (fun a => Forall (fun b => a < b) l2) l1.
Proof.
  induction l1 as [|a l1 IH]; simpl.
  - split; [intros; repeat split; [done | constructor] | tauto].
  - rewrite IH, Forall_app, Forall_cons. tauto.
Qed.

Lemma step_in_call_order maxConcurrent st e st' :
  step maxConcurrent st e = Some st' -> in_call_order st -> in_call_order st'.
Proof.
  unfold in_call_order, waiting. intros Hstep [Hasc Hlt]. destruct e; simpl in Hstep.
  - destruct (maxConcurrent <=? running st); inversion Hstep; subst; simpl.
    + rewrite app_assoc. split.
      * apply ascending_app. split; [done|]. split; [simpl; split; constructor|].
        eapply Forall_impl; [exact Hlt|]. intros w Hw. by repeat constructor.
      * apply Forall_app. split; [|repeat constructor].
        eapply Forall_impl; [exact Hlt|]. simpl. lia.
    + split; [done|]. eapply Forall_impl; [exact Hlt|]. simpl. lia.
  - destruct (woken st) as [|w ws]; [done|].
    inversion Hstep; subst; simpl in *.
    destruct Hasc as [_ Hasc]. apply Forall_cons in Hlt as [_ Hlt]. done.
  - destruct (running st); [done|].
    destruct (queue st) as [|q qs] eqn:Hq; inversion Hstep; subst; simpl in *.
    + by rewrite app_nil_r in *.
    + by rewrite <- app_assoc.
Qed.

(** X6: among the callers that had to wait, wake-up and resumption
    follow the order of the calls: at every moment the callers still
    waiting, the woken ones first, are in increasing order of call. *)
Theorem gate_waiters_in_call_order
    (maxConcurrent : nat) (es : list event) (st : state) :
  run maxConcurrent es init = Some st ->
  ascending (woken st ++ queue st)
  /\ Forall (fun w => w < calls st) (woken st ++ queue st).
Proof.
  assert (H : forall st0, in_call_order st0 ->
                run maxConcurrent es st0 = Some st -> in_call_order st).
  { induction es as [|e es IH]; intros st0 H0 Hrun; simpl in Hrun.
    - by inversion Hrun; subst.
    - destruct (step maxConcurrent st0 e) as [st1|] eqn:Hstep; [|done].
      eapply IH; [|exact Hrun]. by eapply step_in_call_order. }
  intros Hrun. apply (H init); [|done]. split; simpl; constructor.
Qed.

Lemma gate_waiters_in_call_order_witness :
  exists st, run 1 [Acquire; Acquire; Acquire; Finish] init = Some st
             /\ woken st ++ queue st = [1; 2]
             /\ ascending (woken st ++ queue st).
Proof.
  eexists. split; [reflexivity|]. split; [reflexivity|].
  apply (gate_waiters_in_call_order 1 [Acquire; Acquire; Acquire; Finish]).
  reflexivity.
Defined.

Lemma count_cons f e es :
  count f (e :: es) = (if f e then 1 else 0) + count f es.
Proof.
  unfold count. rewrite filter_cons. destruct (f e) eqn:E.
  - rewrite decide_True by done. done.
  - rewrite decide_False by congruence. done.
Qed.

(** X7: no call is lost: in every run, the calls made are the tasks
    running, the callers waiting in the queue, the callers woken, and
    the tasks that have finished. *)
Theorem gate_accounts_for_every_call
    (maxConcurrent : nat) (es : list event) (st : state) :
  run maxConcurrent es init = Some st ->
  count is_acquire es
  = running st + length (queue st) + length (woken st) + count is_finish es.
Proof.
  assert (H : forall st0,
    run maxConcurrent es st0 = Some st ->
    running st0 + length (queue st0) + length (woken st0) + count is_acquire es
    = running st + length (queue st) + length (woken st) + count is_finish es
    /\ calls st = calls st0 + count is_acquire es).
  { induction es as [|e es IH]; intros st0 Hrun; simpl in Hrun.
    - inversion Hrun; subst. unfold count. simpl. lia.
    - destruct (step maxConcurrent st0 e) as [st1|] eqn:Hstep; [|done].
      destruct (IH st1 Hrun) as [IH1 IH2]. rewrite !count_cons.
      destruct e; simpl in Hstep.
      + destruct (maxConcurrent <=? running st0); inversion Hstep; subst; simpl in *;
          rewrite ?length_app in *; simpl in *; lia.
      + destruct (woken st0); [done|]. inversion Hstep; subst; simpl in *. lia.
      + destruct (running st0); [done|].
        destruct (queue st0); inversion Hstep; subst; simpl in *;
          rewrite ?length_app in *; simpl in *; lia. }
  intros Hrun. destruct (H init Hrun) as [H1 H2]. simpl in *. lia.
Qed.

Lemma gate_accounts_for_every_call_witness :
  exists st, run 2 [Acquire; Acquire; Acquire; Finish; Resume; Finish] init = Some st
             /\ count is_acquire [Acquire; Acquire; Acquire; Finish; Resume; Finish]
                = running st + length (queue st) + length (woken st)
                  + count is_finish [Acquire; Acquire; Acquire; Finish; Resume; Finish].
Proof.
  eexists. split; [reflexivity|].
  apply (gate_accounts_for_every_call 2
           [Acquire; Acquire; Acquire; Finish; Resume; Finish]).
  reflexivity.
Defined.

End gate_more.

(** ** More on the batch grouper *)

Section grouper_more.
Import Grouper GrouperShape.

Lemma loop_invariant (P : state -> Prop) ps : forall st,
  (forall st p, P st -> P (step st p)) -> P st -> P (loop ps st).
Proof.
  induction ps as [|p ps IH]; intros st Hstep Hst; [done|].
  change (loop (p :: ps) st) with (loop ps (step st p)). auto.
Qed.

Lemma nonempty_length {A} (l : list A) : 0 < length l -> l <> [].
Proof. destruct l; simpl; [lia | done]. Qed.

Lemma flushed_coherent batch : batch <> [] -> coherent (flushed batch).
Proof. intros. by repeat split. Qed.

Lemma alone_coherent p : coherent (alone p).
Proof. by repeat split. Qed.

Lemma step_coherent st p :
  Forall coherent (groupedParagraphs st) ->
  Forall coherent (groupedParagraphs (step st p)).
Proof.
  intros Hg. unfold step.
  destruct (TARGET_MAX_LENGTH <? _).
  - destruct (0 <? length (currentBatch st)) eqn:E; simpl.
    + apply Nat.ltb_lt in E.
      apply Forall_snoc; [apply Forall_snoc; [done|] | apply alone_coherent].
      by apply flushed_coherent, nonempty_length.
    + apply Forall_snoc; [done | apply alone_coherent].
  - destruct (_ || _); simpl; [|done].
    apply Forall_snoc; [done|]. apply flushed_coherent. by destruct (currentBatch st).
Qed.

Lemma groupParagraphs_coherent ps : Forall coherent (groupParagraphs ps).
Proof.
  unfold groupParagraphs, finish.
  pose proof (loop_invariant (fun st => Forall coherent (groupedParagraphs st))
                ps init step_coherent (Forall_nil_2 _)) as Hl.
  destruct (0 <? _) eqn:E; [|done]. apply Nat.ltb_lt in E.
  apply Forall_snoc; [done|]. by apply flushed_coherent, nonempty_length.
Qed.

(** X8: every batch holds at least one fragment, its [count] is the
    number of its fragments, and its [combinedText] is their original
    texts joined by a double line break. *)
Theorem grouper_batches_coherent (ps : list paragraph) (g : group) :
  g ∈ groupParagraphs ps ->
  paragraphs g <> []
  /\ count g = length (paragraphs g)
  /\ combinedText g = join sep (map originalText (paragraphs g)).
Proof.
  pose proof (groupParagraphs_coherent ps) as H.
  rewrite Forall_forall in H. intros Hg. by apply H.
Qed.

Lemma grouper_batches_coherent_witness :
  combinedText (flushed two_medium)
  = join sep (map originalText (paragraphs (flushed two_medium))).
Proof.
  apply (grouper_batches_coherent two_medium (flushed two_medium)).
  vm_compute. apply list_elem_of_here.
Defined.

Lemma length_flatten_nonempty gs :
  Forall (fun g => paragraphs g <> []) gs -> length gs <= length (flatten gs).
Proof.
  induction 1 as [|g gs Hg _ IH]; [done|].
  unfold flatten in *. simpl. rewrite length_app.
  destruct (paragraphs g); [done | simpl; lia].
Qed.

(** X9: there are never more batches than fragments; in particular no
    fragments give no batch. *)
Theorem grouper_batch_count (ps : list paragraph) :
  length (groupParagraphs ps) <= length ps.
Proof.
  assert (Hflat : flatten (groupParagraphs ps) = ps).
  { unfold groupParagraphs. by rewrite finish_flatten, loop_keeps_order. }
  rewrite <- Hflat at 2. apply length_flatten_nonempty.
  eapply Forall_impl; [apply groupParagraphs_coherent|]. by intros g [Hg _].
Qed.

Lemma chained_snoc gs g :
  chained (gs ++ [g])
  <-> chained gs /\ match last gs with
                    | Some l => complete l \/ lone_oversized g
                    | None => True
                    end.
Proof.
  induction gs as [|a gs IH]; [simpl; tauto|].
  destruct gs as [|b gs]; [simpl; tauto|].
  change (chained ((a :: b :: gs) ++ [g]))
    with ((complete a \/ lone_oversized b) /\ chained ((b :: gs) ++ [g])).
  change (chained (a :: b :: gs))
    with ((complete a \/ lone_oversized b) /\ chained (b :: gs)).
  rewrite IH. change (last (a :: b :: gs)) with (last (b :: gs)). tauto.
Qed.

Lemma closed_snoc gs g : closed gs -> complete g -> closed (gs ++ [g]).
Proof.
  intros [Hc Hl] Hg. split.
  - apply chained_snoc. split; [done|]. destruct (last gs); auto.
  - by rewrite last_snoc.
Qed.

Lemma closed_chained_snoc gs g : closed gs -> chained (gs ++ [g]).
Proof.
  intros [Hc Hl]. apply chained_snoc. split; [done|]. destruct (last gs); auto.
Qed.

Lemma alone_complete p : oversized p -> complete (alone p).
Proof. intros. right. right. by exists p. Qed.

Lemma step_closed st p :
  inv st /\ closed (groupedParagraphs st) ->
  inv (step st p) /\ closed (groupedParagraphs (step st p)).
Proof.
  intros [Hinv Hcl]. split; [by apply inv_step|].
  destruct Hinv as [_ Hl _ _ _]. unfold step.
  destruct (TARGET_MAX_LENGTH <? _) eqn:Hbig.
  - apply Nat.ltb_lt in Hbig.
    destruct (0 <? length (currentBatch st)); simpl.
    + split.
      * apply chained_snoc. split; [by apply closed_chained_snoc|].
        rewrite last_snoc. right. by exists p.
      * rewrite last_snoc. by apply alone_complete.
    + by apply closed_snoc, alone_complete.
  - destruct (_ || _) eqn:Hfl; simpl; [|done].
    apply closed_snoc; [done|].
    apply orb_true_iff in Hfl as [H | H]; apply Nat.leb_le in H.
    + left. simpl. rewrite map_app, sum_lengths_app, <- Hl. simpl. lia.
    + right. left. done.
Qed.

Lemma chained_lookup gs : forall i g g',
  chained gs -> gs !! i = Some g -> gs !! S i = Some g' ->
  complete g \/ lone_oversized g'.
Proof.
  induction gs as [|a gs IH]; intros i g g' Hc Hg Hg'; [done|].
  destruct gs as [|b gs]; [done|]. destruct Hc as [Hab Hc].
  destruct i as [|i]; simpl in *.
  - by inversion Hg; inversion Hg'; subst.
  - by eapply IH.
Qed.

(** X10: the grouper closes a batch early only to make room for an
    oversized fragment: every batch but the last has reached the soft
    minimum of 300 code units, or holds eight fragments, or is a lone
    oversized fragment, or is directly followed by one. *)
Theorem grouper_batches_filled (ps : list paragraph) (i : nat) (g g' : group) :
  groupParagraphs ps !! i = Some g ->
  groupParagraphs ps !! S i = Some g' ->
  TARGET_MIN_LENGTH <= sum_lengths (map originalText (paragraphs g))
  \/ MAX_BATCH_COUNT <= length (paragraphs g)
  \/ (exists p, paragraphs g = [p] /\ oversized p)
  \/ (exists p, paragraphs g' = [p] /\ oversized p).
Proof.
  intros Hg Hg'.
  assert (Hc : chained (groupParagraphs ps)).
  { unfold groupParagraphs, finish.
    destruct (loop_invariant
                (fun st => inv st /\ closed (groupedParagraphs st)) ps init step_closed)
      as [_ Hcl].
    { split; [apply inv_init | by split]. }
    destruct (0 <? _); [by apply closed_chained_snoc | by destruct Hcl]. }
  destruct (chained_lookup _ _ _ _ Hc Hg Hg') as [[H | [H | H]] | H]; auto.
Qed.

Lemma grouper_batches_filled_witness :
  exists g g',
    groupParagraphs (two_medium ++ [para_of_length 2 10 99%N]) !! 0 = Some g
    /\ groupParagraphs (two_medium ++ [para_of_length 2 10 99%N]) !! 1 = Some g'
    /\ (TARGET_MIN_LENGTH <= sum_lengths (map originalText (paragraphs g))
        \/ MAX_BATCH_COUNT <= length (paragraphs g)
        \/ (exists p, paragraphs g = [p] /\ oversized p)
        \/ (exists p, paragraphs g' = [p] /\ oversized p)).
Proof.
  eexists _, _. split; [vm_compute; reflexivity|]. split; [vm_compute; reflexivity|].
  apply (grouper_batches_filled (two_medium ++ [para_of_length 2 10 99%N]) 0);
    vm_compute; reflexivity.
Defined.

End grouper_more.

(** ** More on trimming *)

Section trimming_more.
Import Text ReconcileShape.

Lemma trimStart_inked s : starts_inked (trimStart s).
Proof.
  induction s as [|c s IH]; [done|]. simpl.
  destruct (is_space c) eqn:E; [exact IH | exact E].
Qed.

Lemma trimStart_id s : starts_inked s -> trimStart s = s.
Proof. destruct s as [|c s]; [done|]. simpl. by intros ->. Qed.

Lemma trimStart_suffix s : exists pre, s = pre ++ trimStart s.
Proof.
  induction s as [|c s [pre IH]]; [by exists []|]. simpl.
  destruct (is_space c); [|by exists []].
  exists (c :: pre). simpl. by rewrite <- IH.
Qed.

Lemma starts_inked_prefix (s t : jsstring) :
  starts_inked (s ++ t) -> starts_inked s.
Proof. by destruct s. Qed.

Lemma trimEnd_inked s : starts_inked s -> starts_inked (trimEnd s).
Proof.
  intros Hs. unfold trimEnd.
  destruct (trimStart_suffix (reverse s)) as [pre Hpre].
  assert (Hrev : s = reverse (trimStart (reverse s)) ++ reverse pre).
  { rewrite <- reverse_app, <- Hpre. by rewrite reverse_involutive. }
  rewrite Hrev in Hs. by apply starts_inked_prefix in Hs.
Qed.

Lemma last_reverse_head (s : jsstring) : last (reverse s) = head s.
Proof. destruct s as [|c s]; [done|]. by rewrite reverse_cons, last_snoc. Qed.

(** What [trim] returns has no white space at either end, and trimming
    it again changes nothing. *)
Lemma trim_trimmed s : trimmed (trim s).
Proof.
  unfold trimmed, trim. split.
  - apply trimEnd_inked, trimStart_inked.
  - unfold trimEnd. rewrite last_reverse_head.
    pose proof (trimStart_inked (reverse (trimStart s))) as H.
    by destruct (trimStart (reverse (trimStart s))).
Qed.

Lemma trimmed_trim s : trimmed s -> trim s = s.
Proof.
  intros [Hh Hl]. unfold trim, trimEnd.
  rewrite (trimStart_id s) by exact Hh.
  rewrite trimStart_id; [apply reverse_involutive|].
  assert (He : head (reverse s) = last s).
  { by rewrite <- last_reverse_head, reverse_involutive. }
  unfold starts_inked. destruct (reverse s) as [|c r]; [done|].
  simpl in He. by rewrite <- He in Hl.
Qed.

Lemma trim_idempotent s : trim (trim s) = trim s.
Proof. apply trimmed_trim, trim_trimmed. Qed.

End trimming_more.

(** ** More on the response reconciler *)

Section reconcile_more.
Import Text Reconcile ReconcileShape.

Lemma trimmed_pieces_spec l line :
  line ∈ trimmed_pieces l -> line <> [] /\ trimmed line.
Proof.
  unfold trimmed_pieces. intros [Hne Hin]%list_elem_of_filter.
  apply list_elem_of_fmap in Hin as (s & -> & _).
  split; [by destruct (trim s) | apply trim_trimmed].
Qed.

(** X11: every line of the split that gateway A keeps is non-empty and
    has no white space at either end, and the number of lines kept is at
    least as close to the expected count as the number of lines of
    either candidate split. *)
Theorem chooseSplit_lines (cleanedText : jsstring) (expectedCount : nat) :
  Forall (fun line => line <> [] /\ trimmed line) (chooseSplit cleanedText expectedCount)
  /\ distance (length (chooseSplit cleanedText expectedCount)) expectedCount
     <= distance (length (trimmed_pieces (split_double cleanedText))) expectedCount
  /\ distance (length (chooseSplit cleanedText expectedCount)) expectedCount
     <= distance (length (trimmed_pieces (split_single cleanedText))) expectedCount.
Proof.
  unfold chooseSplit.
  set (d := trimmed_pieces (split_double cleanedText)).
  set (s := trimmed_pieces (split_single cleanedText)).
  assert (Hd : Forall (fun line => line <> [] /\ trimmed line) d).
  { apply Forall_forall. intros line. apply trimmed_pieces_spec. }
  assert (Hs : Forall (fun line => line <> [] /\ trimmed line) s).
  { apply Forall_forall. intros line. apply trimmed_pieces_spec. }
  destruct (length d =? expectedCount) eqn:E1.
  { apply Nat.eqb_eq in E1. split; [done|]. unfold distance. lia. }
  destruct (length s =? expectedCount) eqn:E2.
  { apply Nat.eqb_eq in E2. split; [done|]. unfold distance. lia. }
  destruct (distance (length s) expectedCount <? distance (length d) expectedCount) eqn:E3.
  - apply Nat.ltb_lt in E3. split; [done|]. lia.
  - apply Nat.ltb_ge in E3. split; [done|]. lia.
Qed.

(** X12: when the lines are as many as the fragments, the fragment at
    each position gets the line at that position, and nothing else of
    the fragment changes. *)
Theorem reconcile_exact_is_positional
    (ps : list paragraph) (cleanedText : jsstring) (i : nat) (p : paragraph) :
  length (translatedLines cleanedText (length ps)) = length ps ->
  ps !! i = Some p ->
  exists line,
    translatedLines cleanedText (length ps) !! i = Some line
    /\ reconcileZhipu ps cleanedText !! i = Some (set_translatedText (Str line) p).
Proof.
  intros Hlen Hp. unfold reconcileZhipu, assignZhipu.
  rewrite Hlen, Nat.eqb_refl, list_lookup_imap, Hp. simpl.
  destruct (at_index_lookup (translatedLines cleanedText (length ps)) i) as (line & Hl & Ha).
  { rewrite Hlen. by eapply lookup_lt_Some. }
  exists line. by rewrite Ha.
Qed.

Lemma reconcile_exact_is_positional_witness :
  exists line,
    translatedLines two_segments 2 !! 1 = Some line
    /\ reconcileZhipu (take 2 three_fragments) two_segments !! 1
       = Some (set_translatedText (Str line) (fragment 2 1 (lit "Two."))).
Proof.
  apply (reconcile_exact_is_positional (take 2 three_fragments) two_segments 1).
  - vm_compute. reflexivity.
  - reflexivity.
Defined.

Lemma ceil_div_covers a b : 0 < b -> a <= b * ceil_div a b.
Proof.
  intros Hb. unfold ceil_div.
  pose proof (Nat.div_mod_eq (a + b - 1) b) as H.
  pose proof (Nat.mod_upper_bound (a + b - 1) b). lia.
Qed.

Lemma segment_take_drop lines n idx :
  segment lines n idx
  = take (ceil_div (length lines) n) (drop (idx * ceil_div (length lines) n) lines).
Proof.
  unfold segment, slice.
  set (L := ceil_div (length lines) n).
  destruct (decide (idx * L <= length lines)) as [Hle | Hgt].
  - replace ((idx * L + L) `min` length lines - idx * L)
      with (L `min` (length lines - idx * L)) by lia.
    rewrite <- (length_drop lines (idx * L)).
    symmetry. rewrite <- take_take. by rewrite firstn_all.
  - rewrite !drop_ge by lia. by rewrite !take_nil.
Qed.

Lemma segments_concat lines n k :
  concat (map (segment lines n) (seq 0 k))
  = take (k * ceil_div (length lines) n) lines.
Proof.
  induction k as [|k IH]; [done|].
  rewrite seq_S, map_app, concat_app, IH.
  change (concat (map (segment lines n) [0 + k])) with (segment lines n k ++ []).
  rewrite app_nil_r, segment_take_drop, take_take_drop.
  f_equal. lia.
Qed.

(** X13: when the model returned more lines than the batch has
    fragments, the fragment at position [i] gets the lines from
    position [i * n] up to, but not including, position [(i + 1) * n],
    as far as they exist, joined by a space, where [n] is the number of
    lines divided by the number of fragments, rounded up.  A run has at
    most [n] lines; a late fragment gets fewer, and none at all once
    [i * n] reaches the number of lines: its translation is then the
    empty string, which the test of the pipeline finds untranslated.
    The runs taken in the order of the fragments are all the lines:
    none is dropped, none is used twice, none changes place. *)
Theorem reconcile_surplus_keeps_every_line
    (ps : list paragraph) (lines : list jsstring) (i : nat) (p : paragraph) :
  length ps < length lines ->
  ps !! i = Some p ->
  let n := ceil_div (length lines) (length ps) in
  let run := segment lines (length ps) i in
  assignZhipu ps lines !! i = Some (set_translatedText (Str (join (lit " ") run)) p)
  /\ run = take n (drop (i * n) lines)
  /\ length run = n `min` (length lines - i * n)
  /\ (length lines <= i * n ->
      assignZhipu ps lines !! i = Some (set_translatedText (Str []) p)
      /\ untranslated (set_translatedText (Str []) p) = true)
  /\ concat (map (segment lines (length ps)) (seq 0 (length ps))) = lines.
Proof.
  intros Hlt Hp n run.
  assert (Hassign : assignZhipu ps lines !! i
                    = Some (set_translatedText (Str (join (lit " ") run)) p)).
  { unfold assignZhipu.
    destruct (length lines =? length ps) eqn:E1; [apply Nat.eqb_eq in E1; lia|].
    rewrite (proj2 (Nat.ltb_lt _ _) Hlt), list_lookup_imap, Hp. done. }
  assert (Hrun : run = take n (drop (i * n) lines)) by apply segment_take_drop.
  split; [done|]. split; [done|]. split; [|split].
  - rewrite Hrun, length_take, length_drop. done.
  - intros Hlate. rewrite Hassign.
    assert (run = []) as ->.
    { rewrite Hrun, drop_ge by done. apply take_nil. }
    done.
  - rewrite segments_concat. apply firstn_all2.
    assert (0 < length ps) by (apply lookup_lt_Some in Hp; lia).
    pose proof (ceil_div_covers (length lines) (length ps)). lia.
Qed.

Lemma reconcile_surplus_keeps_every_line_witness :
  assignZhipu three_fragments four_lines !! 2
  = Some (set_translatedText (Str []) (fragment 3 2 (lit "Three."))).
Proof.
  destruct (reconcile_surplus_keeps_every_line three_fragments four_lines 2
              (fragment 3 2 (lit "Three."))) as (_ & _ & _ & H & _).
  - vm_compute. lia.
  - reflexivity.
  - destruct H as [H _]; [vm_compute; lia | exact H].
Defined.

(** Four lines for three fragments: two, two and none. *)
Example surplus_of_one_line :
  map (segment four_lines 3) (seq 0 3) = [[lit "a"; lit "b"]; [lit "c"; lit "d"]; []].
Proof. reflexivity. Qed.

Lemma imap_Forall2 {A B} (R : A -> B -> Prop) (l : list A) : forall (f : nat -> A -> B),
  (forall i a, R a (f i a)) -> Forall2 R l (imap f l).
Proof.
  induction l as [|a l IH]; intros f Hf; simpl; constructor; [apply Hf|].
  apply IH. intros i b. apply Hf.
Qed.

Lemma same_fragment_translatedText p v : same_fragment p (set_translatedText v p).
Proof. by repeat split. Qed.

Lemma same_fragment_skipReason p v w :
  same_fragment p (set_skipReason w (set_translatedText v p)).
Proof. by repeat split. Qed.

(** X14: reconciliation, on gateway A, on gateway B and on a cache hit,
    returns as many fragments as the batch has, each with the anchor,
    original text, index and text node it had: only [translatedText]
    and [skipReason] are written. *)
Theorem reconcile_writes_translation_only (ps : list paragraph) (text : jsstring) :
  Forall2 same_fragment ps (reconcileZhipu ps text)
  /\ Forall2 same_fragment ps (reconcileOpenRouter ps text)
  /\ Forall2 same_fragment ps (reconcileCached ps text).
Proof.
  split; [|split].
  - unfold reconcileZhipu, assignZhipu. repeat case_match;
      apply imap_Forall2; intros i p; repeat case_match;
      auto using same_fragment_translatedText, same_fragment_skipReason.
  - apply imap_Forall2. intros i p. case_match; apply same_fragment_translatedText.
  - apply imap_Forall2. intros i p. case_match; apply same_fragment_translatedText.
Qed.

End reconcile_more.

(** ** More on the retry controller *)

Section retry_more.
Import Backend Retry RetryShape.

Lemma tryBatch_cases b g env :
  (exists fromCache, tryBatch b g env = Returns (Translated (count g) fromCache))
  \/ (exists e, tryBatch b g env = Throws e).
Proof.
  unfold tryBatch. destruct (cachedResult env) as [[|c s]|]; eauto;
    destruct (batchRequest b (exchange_of env)); eauto.
Qed.

Variable punctuationOrSymbol : N -> bool.

(** X15: on a network in which every request fails, is aborted at its
    deadline or delivers a response with its body, the task of a batch
    always ends.  A batch without text, or with digits, white space,
    punctuation and symbols only, is skipped without an attempt.  Every
    other batch ends after one to three attempts and a total wait of at
    most 1.5 seconds on gateway A and 3 seconds on gateway B, with
    either a success that carries the number of fragments of the batch,
    or, after exactly three attempts, a failure.  The return that
    follows the loop ('Max retries exceeded') is never reached. *)
Theorem batch_task_always_ends (b : backend) (g : group) (world : nat -> attempt_env) :
  exists r trace,
    batchTask punctuationOrSymbol b g world = Some (r, trace)
    /\ r <> Exhausted
    /\ attempts trace <= maxRetries
    /\ (total_wait trace <= wait_budget b)%N
    /\ ((skips punctuationOrSymbol g = true /\ r = Skipped /\ trace = [])
        \/ (skips punctuationOrSymbol g = false
            /\ 1 <= attempts trace
            /\ ((exists fromCache, r = Translated (count g) fromCache)
                \/ (exists e, r = Failed e /\ attempts trace = maxRetries)))).
Proof.
  destruct (skips punctuationOrSymbol g) eqn:Hskip.
  { rewrite batchTask_skipped by done. exists Skipped, [].
    split; [done|]. split; [done|].
    split; [unfold maxRetries, attempts; simpl; lia|].
    split; [destruct b; vm_compute; discriminate | by left]. }
  rewrite batchTask_runs by done. unfold retrying. simpl.
  destruct (tryBatch_cases b g (world 0)) as [[fc ->] | [e0 ->]].
  { eexists _, _. split; [reflexivity|]. split; [done|].
    split; [unfold maxRetries, attempts; simpl; lia|].
    split; [destruct b; vm_compute; discriminate|].
    right. split; [done|]. split; [unfold attempts; simpl; lia | eauto]. }
  simpl. destruct (tryBatch_cases b g (world 1)) as [[fc ->] | [e1 ->]].
  { eexists _, _. split; [reflexivity|]. split; [done|].
    split; [unfold maxRetries, attempts; simpl; lia|].
    split; [destruct b; vm_compute; discriminate|].
    right. split; [done|]. split; [unfold attempts; simpl; lia | eauto]. }
  simpl. destruct (tryBatch_cases b g (world 2)) as [[fc ->] | [e2 ->]].
  { eexists _, _. split; [reflexivity|]. split; [done|].
    split; [unfold maxRetries, attempts; simpl; lia|].
    split; [destruct b; vm_compute; discriminate|].
    right. split; [done|]. split; [unfold attempts; simpl; lia | eauto]. }
  eexists _, _. split; [reflexivity|]. split; [done|].
  split; [unfold maxRetries, attempts; simpl; lia|].
  split; [destruct b; vm_compute; discriminate|].
  right. split; [done|]. split; [unfold attempts; simpl; lia | eauto].
Qed.

(** X16: when all three attempts throw, the failure that is returned
    carries the error of the last attempt, not of the first. *)
Theorem retry_reports_last_error
    (b : backend) (body : nat -> outcome result) (e0 e1 e2 : error) :
  body 0 = Throws e0 -> body 1 = Throws e1 -> body 2 = Throws e2 ->
  exists trace, retrying b body = Some (Failed e2, trace) /\ attempts trace = 3.
Proof.
  intros H0 H1 H2. rewrite (retrying_three_throws b body e0 e1 e2) by done.
  eexists. split; reflexivity.
Qed.

Lemma retry_reports_last_error_witness :
  exists trace, retrying Zhipu alwaysAborts = Some (Failed AbortError, trace)
                /\ attempts trace = 3.
Proof.
  apply (retry_reports_last_error Zhipu alwaysAborts AbortError AbortError AbortError);
    reflexivity.
Defined.

(** X17: the first attempt that returns ends the task with what it
    returned: if the attempts before attempt [k] throw and attempt [k]
    returns, the task returns that result after [k + 1] attempts, and
    later exchanges are never looked at. *)
Theorem retry_first_return_wins
    (b : backend) (body : nat -> outcome result) (k : nat) (r : result) :
  k < maxRetries ->
  (forall j, j < k -> exists e, body j = Throws e) ->
  body k = Returns r ->
  exists trace, retrying b body = Some (r, trace) /\ attempts trace = S k.
Proof.
  unfold maxRetries. intros Hk Hbefore Hret. unfold retrying. simpl.
  destruct k as [|[|[|k]]]; [| | |lia].
  - rewrite Hret. eexists. split; reflexivity.
  - destruct (Hbefore 0) as [e0 ->]; [lia|]. simpl. rewrite Hret.
    eexists. split; reflexivity.
  - destruct (Hbefore 0) as [e0 ->]; [lia|]. simpl.
    destruct (Hbefore 1) as [e1 ->]; [lia|]. simpl. rewrite Hret.
    eexists. split; reflexivity.
Qed.

Lemma retry_first_return_wins_witness :
  exists trace, retrying OpenRouter failsOnce = Some (Translated 2 false, trace)
                /\ attempts trace = 2.
Proof.
  apply (retry_first_return_wins OpenRouter failsOnce 1 (Translated 2 false)).
  - unfold maxRetries. lia.
  - intros j Hj. assert (j = 0) as -> by lia. eexists. reflexivity.
  - reflexivity.
Defined.

(** X18: a batch that passes the two skip tests and is found in the
    cache is answered from the cache at the first attempt, without a
    wait and whatever the network would do; a batch that fails one of
    the tests is skipped before the cache is read, whatever the cache
    holds for it. *)
Theorem cache_hit_makes_no_request
    (b : backend) (g : group) (world : nat -> attempt_env) (s : jsstring) :
  cachedResult (world 0) = Some s ->
  s <> [] ->
  batchTask punctuationOrSymbol b g world
  = if skips punctuationOrSymbol g then Some (Skipped, [])
    else Some (Translated (count g) true, [Try 0]).
Proof.
  intros Hc Hs. destruct (skips punctuationOrSymbol g) eqn:Hskip.
  - by apply batchTask_skipped.
  - rewrite batchTask_runs by done. unfold retrying. simpl. unfold tryBatch.
    rewrite Hc. by destruct s.
Qed.

End retry_more.

Lemma cache_hit_makes_no_request_witness :
  Retry.batchTask Retry.asciiMarks Backend.Zhipu Retry.oneGroup
    (RetryShape.cachedOffline (lit "Bonjour."))
  = Some (Retry.Translated 1 true, [Retry.Try 0]).
Proof.
  apply (cache_hit_makes_no_request Retry.asciiMarks Backend.Zhipu Retry.oneGroup
           (RetryShape.cachedOffline (lit "Bonjour.")) (lit "Bonjour."));
    [reflexivity | discriminate].
Defined.

(** The row of asterisks is skipped although the cache has an entry. *)
Example stars_are_skipped :
  Retry.batchTask Retry.asciiMarks Backend.Zhipu RetryShape.stars
    (RetryShape.cachedOffline (lit "Bonjour."))
  = Some (Retry.Skipped, []).
Proof. reflexivity. Qed.

(** ** More on the back ends *)

Section backend_more.
Import Text Backend ReconcileShape.

(** X19: a batch request of gateway A only returns when the response
    arrived before the 120-second deadline with a success status and a
    completion, and what it returns is that completion trimmed, which
    is never empty. *)
Theorem zhipu_returns_inked_completion (x : exchange) (t : jsstring) :
  batchRequest Zhipu x = Returns t ->
  t <> [] /\ trimmed t /\ (latency x < 120000)%N
  /\ exists r d s, answer x = Responds r /\ ok r = true
                   /\ json r = Some d /\ choices d = Some (Some s) /\ t = trim s.
Proof.
  unfold batchRequest, fetch. simpl. unfold BATCH_TIMEOUT.
  destruct (120000 <=? latency x)%N eqn:El; [done|]. apply N.leb_gt in El.
  destruct (answer x) as [m | r]; [done|].
  unfold zhipuCompletion. destruct (ok r) eqn:Hok; simpl.
  - destruct (json r) as [d|] eqn:Hj; [|done].
    destruct (choices d) as [[s|]|] eqn:Hc; [|done..].
    destruct (trim s) as [|c u] eqn:Ht; [done|].
    intros [= <-]. split; [done|]. split; [rewrite <- Ht; apply trim_trimmed|].
    split; [done|]. exists r, d, s. by rewrite Ht.
  - by destruct (status r =? 401).
Qed.

Lemma zhipu_returns_inked_completion_witness :
  lit "Bonjour." <> [] /\ trimmed (lit "Bonjour.").
Proof.
  destruct (zhipu_returns_inked_completion (completes (lit " Bonjour. ")) (lit "Bonjour."))
    as (H1 & H2 & _); [reflexivity|]. by split.
Defined.


End backend_more.

(** ** The retry pass *)

Section retry_pass.
Import Text Backend Reconcile ReconcileShape RetryPass.
Variable cleanTranslatedText : jsstring -> jsstring.




Lemma retry_of_a_fragment_frame b para x :
  same_fragment para (retryOne cleanTranslatedText b para x).
Proof. unfold retryOne. repeat case_match; by repeat split. Qed.

Lemma retryFrom_spec b world ps : forall k,
  Forall2 (fun p q => same_fragment p q /\ (untranslated p = false -> q = p))
          ps (retryFrom cleanTranslatedText b world k ps).1
  /\ (retryFrom cleanTranslatedText b world k ps).2
     = k + length (filter (fun p => untranslated p = true) ps).
Proof.
  induction ps as [|p ps IH]; intros k.
  - split; [constructor | simpl; lia].
  - rewrite filter_cons. cbn [retryFrom].
    destruct (untranslated p) eqn:Hu.
    + destruct (IH (S k)) as [IH1 IH2].
      destruct (retryFrom cleanTranslatedText b world (S k) ps) as [rest n].
      rewrite decide_True by done. simpl in *. split; [|lia].
      constructor; [|done]. split; [|intros; congruence].
      apply (retry_of_a_fragment_frame b p (world k)).
    + destruct (IH k) as [IH1 IH2].
      destruct (retryFrom cleanTranslatedText b world k ps) as [rest n].
      rewrite decide_False by congruence. simpl in *. split; [|done].
      constructor; [|done]. split; [by repeat split | done].
Qed.

(** X22: the retry pass makes one request for each fragment that the
    pipeline's test finds untranslated, in the order of the fragments,
    and none for the others, which it returns as they are; it returns
    every fragment with the anchor, original text and index it had. *)
Theorem retry_pass_takes_the_untranslated
    (b : backend) (world : nat -> exchange) (ps : list paragraph) :
  Forall2 (fun p q => same_fragment p q /\ (untranslated p = false -> q = p))
          ps (retryPass cleanTranslatedText b world ps).1
  /\ (retryPass cleanTranslatedText b world ps).2
     = length (filter (fun p => untranslated p = true) ps).
Proof. apply (retryFrom_spec b world ps 0). Qed.

End retry_pass.


(** ** More on the fragment extractor *)

Section extractor_more.
Import Text Dom Extract ReconcileShape ExtractShape.
Variable innerHTML : node -> jsstring.

Lemma elem_of_push ps e o r tn p :
  p ∈ push ps e o r tn ->
  p ∈ ps \/ (element p = e /\ originalText p = o /\ rawText p = r /\ textNode p = tn
             /\ translatedText p = Undefined /\ skipReason p = Null
             /\ isInline p = bool_decide (tn <> None)).
Proof.
  intros [H | H]%elem_of_app; [by left | right].
  apply list_elem_of_singleton in H as ->. by repeat split.
Qed.

Lemma elem_of_pushAll subs : forall ps e p,
  p ∈ pushAll ps e subs ->
  p ∈ ps \/ (element p = e /\ originalText p ∈ subs /\ originalText p <> []
             /\ textNode p = None
             /\ translatedText p = Undefined /\ skipReason p = Null
             /\ isInline p = false).
Proof.
  induction subs as [|s subs IH]; intros ps e p Hp; [by left|].
  change (pushAll ps e (s :: subs))
    with (pushAll (if 1 <=? length s then push ps e s s None else ps) e subs) in Hp.
  apply IH in Hp as [Hp | (He & Ho & Hrest)].
  - destruct (1 <=? length s) eqn:E.
    + apply elem_of_push in Hp as [Hp | (He & Ho & _ & Ht & Hu & Hs & Hi)]; [by left|].
      right. rewrite Ho. split; [done|]. split; [apply list_elem_of_here|].
      split; [by destruct s|]. done.
    + by left.
  - right. split; [done|]. split; [by apply list_elem_of_further | done].
Qed.

Lemma brChild_trimmed st k :
  Forall trimmed (subParagraphs st) -> Forall trimmed (subParagraphs (brChild st k)).
Proof.
  intros H. destruct k as [i d | i d | i t kids]; simpl; [| done |].
  - by destruct (_ || _).
  - destruct (String.eqb t "br").
    + destruct (nonempty _); [|done]. simpl.
      apply Forall_snoc; [done | apply trim_trimmed].
    + destruct (String.eqb t "a").
      * by destruct (nonempty _).
      * by destruct (_ && _).
Qed.

Lemma splitAtBr_trimmed kids : Forall trimmed (splitAtBr kids).
Proof.
  unfold splitAtBr.
  assert (H : forall st, Forall trimmed (subParagraphs st) ->
                Forall trimmed (subParagraphs (foldl brChild st kids))).
  { induction kids as [|k kids IH]; intros st Hst; [done|].
    simpl. by apply IH, brChild_trimmed. }
  specialize (H (BrState [] []) (Forall_nil_2 _)).
  destruct (nonempty _); [|done].
  apply Forall_snoc; [done | apply trim_trimmed].
Qed.

Lemma pristine_intro p :
  originalText p <> [] -> trimmed (originalText p) ->
  translatedText p = Undefined -> skipReason p = Null ->
  isInline p = bool_decide (textNode p <> None) -> pristine p.
Proof. intros. refine (conj _ (conj _ (conj _ (conj _ _)))); assumption. Qed.

(** What a visit adds is pristine and made for the visited node. *)
Lemma visit_new b st t p :
  p ∈ paragraphs (visit innerHTML b st t) ->
  p ∈ paragraphs st \/ (pristine p /\ made_for b t p).
Proof.
  unfold visit. destruct (0 <? length (trim (tn_data t))) eqn:Hlen; [|by left].
  destruct (List.find is_block (tn_ancestors t)) as [el|] eqn:Hf.
  - destruct (bool_decide _); [by left|].
    destruct (_ && _) eqn:Hbr.
    + simpl.
      intros [Hp | (He & Ho & Hne & Ht & Hu & Hs & Hi)]%elem_of_pushAll; [by left|].
      right. split.
      * pose proof (splitAtBr_trimmed (match el with Element _ _ k => k | _ => [] end)) as Htr.
        rewrite Forall_forall in Htr.
        apply pristine_intro; [done | by apply Htr | done | done |].
        rewrite Ht, Hi. symmetry. apply bool_decide_eq_false_2. intros H. by apply H.
      * left. split; [done|]. by exists el.
    + destruct (1 <=? length (trim (textContent el))) eqn:Hl; simpl; [|by left].
      intros [Hp | (He & Ho & _ & Ht & Hu & Hs & Hi)]%elem_of_push; [by left|].
      right. split.
      * apply pristine_intro; rewrite ?Ho; [| apply trim_trimmed | done | done
                                            | by rewrite Ht, Hi].
        by destruct (trim (textContent el)).
      * left. split; [done|]. by exists el.
  - simpl. intros [Hp | (He & Ho & _ & Ht & Hu & Hs & Hi)]%elem_of_push; [by left|].
    right. split.
    + apply pristine_intro; rewrite ?Ho; [| apply trim_trimmed | done | done
                                          | by rewrite Ht, Hi].
      by destruct (trim (tn_data t)).
    + right. by repeat split.
Qed.

Lemma walk_new b ts : forall st p,
  p ∈ paragraphs (foldl (visit innerHTML b) st ts) ->
  p ∈ paragraphs st \/ (pristine p /\ exists t, t ∈ ts /\ made_for b t p).
Proof.
  induction ts as [|t ts IH]; intros st p Hp; [by left|].
  simpl in Hp. apply IH in Hp as [Hp | (Hw & u & Hu & Hm)].
  - apply visit_new in Hp as [Hp | [Hw Hm]]; [by left | right].
    split; [done|]. exists t. split; [apply list_elem_of_here | done].
  - right. split; [done|]. exists u. split; [by apply list_elem_of_further | done].
Qed.

(** X23: every extracted fragment is pristine (a non-empty original
    text without white space at either end, no translation, no skip
    reason) and was made for a text node of the body that the walker
    accepts: it is anchored at the nearest block-level ancestor of that
    node, or, for a node without one, it is the inline fragment of the
    node with the node's trimmed data. *)
Theorem extract_fragments_are_sound (doc : document) (p : paragraph) :
  p ∈ extractParagraphs innerHTML doc ->
  pristine p
  /\ exists t, t ∈ textNodesOf (body doc) /\ acceptNode t = true
               /\ made_for (body_id doc) t p.
Proof.
  unfold extractParagraphs. intros Hp.
  apply walk_new in Hp as [Hp | (Hw & t & Ht & Hm)]; [by apply elem_of_nil in Hp|].
  split; [done|]. apply list_elem_of_filter in Ht as [Hacc Ht]. by exists t.
Qed.

Lemma numbered_push ps e o r tn : numbered ps -> numbered (push ps e o r tn).
Proof.
  intros Hn i p Hp. unfold push in Hp.
  apply lookup_app_Some in Hp as [Hp | [Hi Hp]]; [by apply Hn|].
  apply list_lookup_singleton_Some in Hp as [Hz <-]. simpl. lia.
Qed.

Lemma numbered_pushAll subs : forall ps e, numbered ps -> numbered (pushAll ps e subs).
Proof.
  induction subs as [|s subs IH]; intros ps e Hn; [done|].
  change (pushAll ps e (s :: subs))
    with (pushAll (if 1 <=? length s then push ps e s s None else ps) e subs).
  apply IH. destruct (1 <=? length s); [by apply numbered_push | done].
Qed.

Lemma numbered_visit b st t :
  numbered (paragraphs st) -> numbered (paragraphs (visit innerHTML b st t)).
Proof.
  intros Hn. unfold visit. destruct (0 <? _); [|done].
  destruct (List.find _ _); [|by apply numbered_push].
  destruct (bool_decide _); [done|].
  destruct (_ && _); [by apply numbered_pushAll|].
  destruct (1 <=? _); [by apply numbered_push | done].
Qed.

(** X24: the [index] of every extracted fragment is its position in
    the fragment list, also for the fragments split off at line breaks. *)
Theorem extract_index_is_position (doc : document) (i : nat) (p : paragraph) :
  extractParagraphs innerHTML doc !! i = Some p -> index p = i.
Proof.
  unfold extractParagraphs.
  assert (H : forall ts st, numbered (paragraphs st) ->
                numbered (paragraphs (foldl (visit innerHTML (body_id doc)) st ts))).
  { induction ts as [|t ts IH]; intros st Hst; [done|].
    simpl. by apply IH, numbered_visit. }
  apply H. by intros j q Hq.
Qed.

(** X25: in a parsed document, extraction yields no fragment exactly
    when the walker accepts no text node of the body, that is when every
    text node is white space or directly inside a script or style
    element. *)
Theorem extract_empty_iff_nothing_accepted (doc : document) :
  Forall void_br (body doc) ->
  extractParagraphs innerHTML doc = []
  <-> forall t, t ∈ textNodesOf (body doc) -> acceptNode t = false.
Proof.
  intros Hv. split.
  - intros Hnil t Ht. destruct (acceptNode t) eqn:Hacc; [|done].
    destruct (walk_accounts innerHTML (body_id doc)
                (filter (fun t => acceptNode t = true) (textNodesOf (body doc)))
                {| processedElements := ∅; paragraphs := [] |} t) as (p & Hp & _).
    + apply Forall_forall. intros u [Hu Hin]%list_elem_of_filter. split.
      * unfold acceptNode in Hu. rewrite blank_ink in Hu.
        by destruct (has_ink (tn_data u)).
      * intros a Ha. by eapply textNodesOf_ancestors.
    + intros e He. by apply elem_of_empty in He.
    + by apply list_elem_of_filter.
    + unfold extractParagraphs in Hnil. rewrite Hnil in Hp.
      by apply elem_of_nil in Hp.
  - intros Hnone. unfold extractParagraphs.
    replace (filter (fun t => acceptNode t = true) (textNodesOf (body doc)))
      with (@nil textnode); [done|].
    symmetry. apply elem_of_nil_inv. intros t [Hacc Ht]%list_elem_of_filter.
    rewrite (Hnone t Ht) in Hacc. done.
Qed.

End extractor_more.

Lemma extract_fragments_are_sound_witness :
  ExtractShape.pristine (Reconcile.fragment 2 1 (lit "Second line")).
Proof.
  apply (extract_fragments_are_sound Dom.plainInnerHTML Extract.stanzas).
  vm_compute. apply list_elem_of_further, list_elem_of_here.
Defined.

Lemma extract_index_is_position_witness :
  index (Reconcile.fragment 2 1 (lit "Second line")) = 1.
Proof.
  apply (extract_index_is_position Dom.plainInnerHTML Extract.stanzas).
  vm_compute. reflexivity.
Defined.

Lemma extract_empty_iff_nothing_accepted_witness :
  Extract.extractParagraphs Dom.plainInnerHTML
    {| Dom.head := []; Dom.body_id := 1;
       Dom.body := [Dom.Element 2 "script" [Dom.TextNode 3 (lit "var x = 1;")];
                    Dom.TextNode 4 (lit "  ")] |} = [].
Proof.
  apply extract_empty_iff_nothing_accepted.
  - repeat constructor; simpl; intuition discriminate.
  - intros t Ht. vm_compute in Ht.
    apply elem_of_cons in Ht as [-> | Ht]; [vm_compute; reflexivity|].
    apply list_elem_of_singleton in Ht as ->. vm_compute. reflexivity.
Defined.

(** ** More on the document rewriter *)

Section rewriter_more.
Import Text Dom Metadata Rewrite RewriteShape.

Lemma filter_concat {A} (P : A -> Prop) `{forall x, Decision (P x)} (ls : list (list A)) :
  filter P (concat ls) = concat (map (filter P) ls).
Proof. induction ls as [|l ls IH]; simpl; [done | by rewrite filter_app, IH]. Qed.

Lemma concat_map_concat {A B C} (f : B -> list C) (g : A -> list B) (l : list A) :
  concat (map f (concat (map g l))) = concat (map (fun a => concat (map f (g a))) l).
Proof.
  induction l as [|a l IH]; simpl; [done|].
  by rewrite map_app, concat_app, IH.
Qed.

(** Below an element, the clean-up pass keeps the text nodes that match
    no pattern, in their order, and nothing else. *)
Lemma placesUnder_prune n : forall anc,
  is_text n = false ->
  placesUnder anc (prune n) = filter kept (placesUnder anc n).
Proof.
  induction n as [i d | i d | i t kids IH] using node_tree_ind; intros anc Hn;
    [done | done |].
  simpl. rewrite concat_map_concat, filter_concat, map_map.
  apply concat_map_ext. eapply Forall_impl; [exact IH|].
  intros [j d | j d | j t' kids'] Hk.
  - simpl. rewrite filter_cons, filter_nil.
    destruct (decide (kept (j, d, i :: anc))) as [Hk' | Hk'];
      unfold kept in Hk'; simpl in Hk'.
    + by rewrite Hk'.
    + destruct (removed d); [done | congruence].
  - done.
  - simpl. rewrite app_nil_r. by apply (Hk (i :: anc)).
Qed.

Variable innerHTML : node -> jsstring.

Lemma rewriteStep_root_element ps st para :
  is_text (root st) = false -> is_text (root (rewriteStep innerHTML ps st para)) = false.
Proof.
  intros Hr. unfold rewriteStep. destruct (translated para); [|done].
  destruct (textNode para).
  - simpl. by destruct (root st).
  - destruct (bool_decide _); [done|]. simpl.
    destruct (root st) as [| |i t kids]; try done. simpl. by destruct (i =? _).
Qed.

Lemma rewriteLoop_root_element ps qs : forall st,
  is_text (root st) = false ->
  is_text (root (foldl (rewriteStep innerHTML ps) st qs)) = false.
Proof.
  induction qs as [|q qs IH]; intros st Hst; [done|].
  simpl. by apply IH, rewriteStep_root_element.
Qed.

(** X26: no text node of a rewritten body matches a metadata pattern,
    be its text original or translated: whatever matches is removed
    before the document is serialized. *)
Theorem rewrite_output_has_no_metadata
    (doc : document) (ps : list paragraph) (x : place) :
  x ∈ places (rewriteDocument innerHTML doc ps) ->
  removed x.1.2 = false.
Proof.
  unfold rewriteDocument, places. rewrite placesUnder_prune.
  - by intros [Hk _]%list_elem_of_filter.
  - by apply rewriteLoop_root_element.
Qed.

Lemma rewriteLoop_untranslated ps qs : forall st,
  Forall (fun q => translated q = false) qs ->
  foldl (rewriteStep innerHTML ps) st qs = st.
Proof.
  induction qs as [|q qs IH]; intros st Hq; [done|].
  apply Forall_cons in Hq as [Hq Hqs]. simpl.
  unfold rewriteStep at 2. rewrite Hq. by apply IH.
Qed.

(** X27: when no fragment has a translation, the rewriting stage leaves
    the body as it is except for the clean-up pass: the text nodes of
    the result are those of the body that match no metadata pattern, in
    the same order and places. *)
Theorem rewrite_without_translation
    (doc : document) (ps : list paragraph) :
  Forall (fun q => translated q = false) ps ->
  rewriteDocument innerHTML doc ps = prune (bodyElement doc)
  /\ places (rewriteDocument innerHTML doc ps)
     = filter kept (places (bodyElement doc)).
Proof.
  intros Hps. unfold rewriteDocument. rewrite rewriteLoop_untranslated by done.
  split; [done|]. by apply placesUnder_prune.
Qed.

(** One step of the loop on a text node whose anchors are described by
    [cond]: its data becomes the translation when the step is that of a
    translated inline fragment of the node, and stays otherwise. *)
Lemma rewriteStep_inline ps st q i d s path :
  (i, d, path) ∈ places (root st) ->
  (translated q = true ->
     (textNode q = Some i -> text_of (translatedText q) = s)
     /\ (textNode q = None -> element q ∉ path)) ->
  (i, if translated q && bool_decide (textNode q = Some i) then s else d, path)
  ∈ places (root (rewriteStep innerHTML ps st q)).
Proof.
  intros Hx Hcond. unfold rewriteStep.
  destruct (translated q); [|done]. destruct (Hcond eq_refl) as [Hsame Hfree].
  simpl. destruct (textNode q) as [tn|].
  - simpl. rewrite setData_edit.
    pose proof (edit_keeps (fun _ => false) (fun _ => [])
                  (fun j e => if j =? tn then text_of (translatedText q) else e)
                  (fun _ => true) (root st) [] i d path Hx) as H.
    simpl in H. destruct (i =? tn) eqn:E.
    + apply Nat.eqb_eq in E as ->.
      rewrite bool_decide_eq_true_2 by done. rewrite <- Hsame by done. by apply H.
    + apply Nat.eqb_neq in E. rewrite bool_decide_eq_false_2 by congruence.
      by apply H.
  - rewrite bool_decide_eq_false_2 by done.
    destruct (bool_decide (_ ∈ _)); [done|]. simpl. rewrite setChildren_edit.
    apply (edit_keeps _ _ (fun _ e => e) (fun _ => true) (root st) [] i d path Hx);
      [|done].
    intros a Ha. apply Nat.eqb_neq. intros ->. by apply Hfree.
Qed.

Lemma rewriteLoop_inline ps i s path qs : forall st d,
  (i, d, path) ∈ places (root st) ->
  (forall q, q ∈ qs -> translated q = true ->
     (textNode q = Some i -> text_of (translatedText q) = s)
     /\ (textNode q = None -> element q ∉ path)) ->
  exists d', (i, d', path) ∈ places (root (foldl (rewriteStep innerHTML ps) st qs))
             /\ (d' = d \/ d' = s)
             /\ (d = s -> d' = s)
             /\ ((exists q, q ∈ qs /\ translated q = true /\ textNode q = Some i) -> d' = s).
Proof.
  induction qs as [|q qs IH]; intros st d Hx Hcond.
  - exists d. split; [done|]. split; [by left|]. split; [done|].
    intros (q & Hq & _). by apply elem_of_nil in Hq.
  - simpl.
    pose proof (rewriteStep_inline ps st q i d s path Hx
                  (Hcond q (list_elem_of_here _ _))) as Hstep.
    set (d1 := if translated q && bool_decide (textNode q = Some i) then s else d) in *.
    destruct (IH _ d1 Hstep) as (d' & Hd' & Hor & Hs & Hex).
    { intros q' Hq'. by apply Hcond, list_elem_of_further. }
    exists d'. split; [done|].
    assert (Hd1 : d1 = d \/ d1 = s).
    { unfold d1. destruct (_ && _); auto. }
    split; [destruct Hor as [-> | ->]; auto|].
    split.
    + intros ->. apply Hs. unfold d1. by destruct (_ && _).
    + intros (q' & [-> | Hq']%elem_of_cons & Ht & Htn).
      * apply Hs. unfold d1. rewrite Ht. by rewrite bool_decide_eq_true_2.
      * apply Hex. by exists q'.
Qed.

(** X28: the translation of an inline fragment is written to the text
    node of the fragment, in place: when no translated block fragment is
    anchored around the node and the translated fragments of the node
    agree on the text, the rewritten body has the node with that text
    under the same ancestors, provided the text matches no metadata
    pattern. *)
Theorem rewrite_writes_inline_translation
    (doc : document) (ps : list paragraph) (p : paragraph)
    (i : nat) (d : jsstring) (path : list nat) :
  (i, d, path) ∈ places (bodyElement doc) ->
  p ∈ ps -> translated p = true -> textNode p = Some i ->
  (forall q, q ∈ ps -> translated q = true ->
     (textNode q = Some i -> text_of (translatedText q) = text_of (translatedText p))
     /\ (textNode q = None -> element q ∉ path)) ->
  removed (text_of (translatedText p)) = false ->
  (i, text_of (translatedText p), path) ∈ places (rewriteDocument innerHTML doc ps).
Proof.
  intros Hx Hp Ht Htn Hcond Hmeta. unfold rewriteDocument.
  destruct (rewriteLoop_inline ps i (text_of (translatedText p)) path ps
              {| root := bodyElement doc; replacedElements := ∅;
                 fresh := S (max_id (bodyElement doc)) |} d Hx Hcond)
    as (d' & Hd' & _ & _ & Hex).
  rewrite Hex in Hd' by (by exists p).
  unfold places. rewrite placesUnder_prune.
  - apply list_elem_of_filter. by split.
  - apply rewriteLoop_root_element. done.
Qed.

End rewriter_more.

(** The paragraph of the stanzas is rebuilt with a line break between
    the two translations, and the parser reads the carriage return and
    line feed of the first as one line feed. *)
Example rewrite_rebuilds_line_breaks :
  Rewrite.places
    (Rewrite.rewriteDocument Dom.plainInnerHTML Extract.stanzas
       RewriteShape.stanzas_translated)
  = [(7, lit "Erste" ++ [10%N] ++ lit "Zeile", [2; 1]);
     (9, lit "Zweite Zeile", [2; 1]);
     (6, lit "Fin", [1])].
Proof. vm_compute. reflexivity. Qed.

Lemma rewrite_output_has_no_metadata_witness :
  Metadata.removed (lit "Fin") = false.
Proof.
  apply (rewrite_output_has_no_metadata Dom.plainInnerHTML Extract.stanzas
           Rewrite.stanzas_half_translated (6, lit "Fin", [1])).
  vm_compute. apply list_elem_of_further, list_elem_of_here.
Defined.

Lemma rewrite_without_translation_witness :
  Rewrite.places
    (Rewrite.rewriteDocument Dom.plainInnerHTML Rewrite.diary
       (Extract.extractParagraphs Dom.plainInnerHTML Rewrite.diary))
  = filter RewriteShape.kept (Rewrite.places (Rewrite.bodyElement Rewrite.diary)).
Proof.
  apply (rewrite_without_translation Dom.plainInnerHTML Rewrite.diary).
  vm_compute. repeat constructor.
Defined.

Lemma rewrite_writes_inline_translation_witness :
  (2, lit "Bonjour", [1])
  ∈ Rewrite.places
      (Rewrite.rewriteDocument Dom.plainInnerHTML RewriteShape.loose_page
         RewriteShape.loose_translated).
Proof.
  apply (rewrite_writes_inline_translation Dom.plainInnerHTML RewriteShape.loose_page
           RewriteShape.loose_translated
           {| element := 1; originalText := lit "Hello there";
              rawText := lit "Hello there"; index := 0; skipReason := Null;
              textNode := Some 2; isInline := true;
              translatedText := Str (lit "Bonjour") |} 2 (lit "Hello there") [1]).
  - vm_compute. apply list_elem_of_here.
  - apply list_elem_of_here.
  - vm_compute. reflexivity.
  - reflexivity.
  - intros q Hq _. apply list_elem_of_singleton in Hq as ->. split; [done|]. discriminate.
  - vm_compute. reflexivity.
Defined.

(** ** The offline stub *)

Section demo.
Import Text Dom Rewrite Demo.

Lemma placesUnder_mark m n : forall anc,
  placesUnder anc (mark m n) = map (marked m) (placesUnder anc n).
Proof.
  induction n as [i d | i d | i t kids IH] using node_tree_ind; intros anc.
  - simpl. unfold marked, blank. simpl. by destruct (nonempty (trim d)).
  - done.
  - simpl. rewrite map_map.
    induction IH as [|k kids Hk _ IHk]; [done|].
    simpl. by rewrite map_app, Hk, IHk.
Qed.

(** X29: for a supported language pair the offline stub changes the
    text nodes of the body and nothing else: each text node stays in
    its place, one that is not white space only gets the language
    marker in front of its unchanged text, and one that is white space
    only keeps its text. *)
Theorem demo_marks_every_text
    (sourceLang targetLang : string) (doc : document) (m : jsstring) :
  marker sourceLang targetLang = Some m ->
  exists out,
    demoTranslate sourceLang targetLang doc = Some out
    /\ places out = map (marked m) (places (bodyElement doc)).
Proof.
  intros Hm. unfold demoTranslate. rewrite Hm. eexists. split; [done|].
  apply placesUnder_mark.
Qed.

Lemma demo_marks_every_text_witness :
  exists out,
    demoTranslate "en" "zh" Extract.stanzas = Some out
    /\ places out
       = map (marked (lit "[" ++ [33521; 35821; 8594; 20013; 25991]%N ++ lit "] "))
             (places (bodyElement Extract.stanzas)).
Proof.
  apply (demo_marks_every_text "en" "zh" Extract.stanzas). reflexivity.
Defined.

End demo.
